(** * Coordinate transformation of the wildlife protection map

    A shallow embedding of [utils/coordinateTransform.ts] (the three point
    affine estimator, its Gauss solver, the forward and inverse transforms,
    the bounds conversion and the accuracy validator), of
    [calculateDistance] from the geolocation helpers and of
    [updateOverlayPosition] from [utils/mapHelpers.ts].

    Numbers are modelled as exact rationals in canonical form ([Qc]), so
    that equality is Leibniz equality and [ring]/[field] apply.  Every
    statement about the embedding is therefore a statement in exact
    arithmetic.  A thrown [Error] is the [Err] branch of [result]. *)

From Stdlib Require Import String QArith Qround Qcanon Qcabs List Lia Arith Lqa.
Import ListNotations.

Open Scope Qc_scope.

(** Rational literals. *)
Definition qc (q : Q) : Qc := Q2Qc q.

(** ** Errors thrown by the module *)

Inductive TransformError :=
| InsufficientReferencePoints  (* '基準点は正確に3つ必要です' *)
| DegenerateConfiguration      (* '変換マトリックスの計算に失敗しました。…' *)
| SingularMatrix               (* '変換マトリックスが特異です。逆変換できません。' *)
| MismatchedPointCounts.       (* '基準点の数が一致しません' *)

Inductive result (A : Type) : Type :=
| Ok (v : A)
| Err (e : TransformError).
Arguments Ok {A} v.
Arguments Err {A} e.

Definition bind {A B} (r : result A) (k : A -> result B) : result B :=
  match r with Ok v => k v | Err e => Err e end.

Notation "x <- r ;; k" := (bind r (fun x => k))
  (at level 61, r at next level, right associativity).

(** ** Data model (types/index.ts) *)

(** A plain [{ x: number; y: number }] object. *)
Record XY := mkXY { x : Qc; y : Qc }.

Record PDFPoint := mkPDFPoint { pdf_x : Qc; pdf_y : Qc; pageNumber : Z }.

(** TypeScript's structural typing lets a [PDFPoint] be passed where an
    [{ x; y }] object is expected. *)
Definition PDFPoint_xy (p : PDFPoint) : XY := mkXY (pdf_x p) (pdf_y p).
Coercion PDFPoint_xy : PDFPoint >-> XY.

Record MapPoint := mkMapPoint { lat : Qc; lng : Qc }.

Record TransformMatrix := mkTransformMatrix {
  a : Qc; b : Qc; c : Qc; d : Qc; e : Qc; f : Qc }.

(** ** Arrays *)

(** [l[i] = v] on an index inside the array (every write of the module is). *)
Fixpoint set_nth {A} (l : list A) (i : nat) (v : A) : list A :=
  match l, i with
  | [], _ => []
  | _ :: t, O => v :: t
  | h :: t, S i' => h :: set_nth t i' v
  end.

(** [augmented[k][j]]. *)
Definition get (M : list (list Qc)) (k j : nat) : Qc := nth j (nth k M []) 0.

(** [Math.abs(u) < 1e-10]. *)
Definition eps : Qc := qc 1e-10.

Definition below_eps (u : Qc) : bool :=
  if Qclt_le_dec (Qcabs u) eps then true else false.

(** ** solveLinearSystem *)

(** [A.map((row, i) => [...row, B[i]])] (a missing [B[i]] is read as 0). *)
Fixpoint augment (A : list (list Qc)) (B : list Qc) : list (list Qc) :=
  match A with
  | [] => []
  | row :: A' => (row ++ [hd 0 B]) :: augment A' (tl B)
  end.

(** [for (let k = i + 1; k < n; k++)
       if (Math.abs(augmented[k][i]) > Math.abs(augmented[maxRow][i]))
         maxRow = k;] *)
Fixpoint pivot_loop (aug : list (list Qc)) (i k fuel maxRow : nat) : nat :=
  match fuel with
  | O => maxRow
  | S fuel' =>
      let maxRow' :=
        if Qclt_le_dec (Qcabs (get aug maxRow i)) (Qcabs (get aug k i))
        then k else maxRow in
      pivot_loop aug i (S k) fuel' maxRow'
  end.

Definition pivot_row (aug : list (list Qc)) (i n : nat) : nat :=
  pivot_loop aug i (S i) (n - S i) i.

(** [[augmented[i], augmented[maxRow]] = [augmented[maxRow], augmented[i]]]. *)
Definition swap_rows (aug : list (list Qc)) (i r : nat) : list (list Qc) :=
  let row_i := nth i aug [] in
  let row_r := nth r aug [] in
  set_nth (set_nth aug i row_r) r row_i.

(** [for (let j = i; j <= n; j++) augmented[k][j] -= factor * augmented[i][j];]
    on row [rowk], started at [j] with [fuel] iterations left. *)
Fixpoint elim_cols (rowi rowk : list Qc) (factor : Qc) (j fuel : nat)
  : list Qc :=
  match fuel with
  | O => rowk
  | S fuel' =>
      elim_cols rowi (set_nth rowk j (nth j rowk 0 - factor * nth j rowi 0))
        factor (S j) fuel'
  end.

(** Row [k] after its elimination step against pivot row [i]. *)
Definition elim_row_of (aug : list (list Qc)) (i n k : nat) : list Qc :=
  let rowi := nth i aug [] in
  let rowk := nth k aug [] in
  let factor := nth i rowk 0 / nth i rowi 0 in
  elim_cols rowi rowk factor i (S n - i).

(** [for (let k = i + 1; k < n; k++) { const factor = …; … }]. *)
Fixpoint elim_rows (aug : list (list Qc)) (i k fuel n : nat)
  : list (list Qc) :=
  match fuel with
  | O => aug
  | S fuel' => elim_rows (set_nth aug k (elim_row_of aug i n k)) i (S k) fuel' n
  end.

(** The forward elimination loop [for (let i = 0; i < n; i++)], from
    column [i] with [fuel] columns left. *)
Fixpoint forward (aug : list (list Qc)) (i fuel n : nat)
  : result (list (list Qc)) :=
  match fuel with
  | O => Ok aug
  | S fuel' =>
      let aug1 := swap_rows aug i (pivot_row aug i n) in
      if below_eps (get aug1 i i) then Err DegenerateConfiguration
      else forward (elim_rows aug1 i (S i) (n - S i) n) (S i) fuel' n
  end.

(** [for (let j = i + 1; j < n; j++) solution[i] -= augmented[i][j] * solution[j];] *)
Fixpoint back_inner (rowi sol : list Qc) (s : Qc) (j fuel : nat) : Qc :=
  match fuel with
  | O => s
  | S fuel' => back_inner rowi sol (s - nth j rowi 0 * nth j sol 0) (S j) fuel'
  end.

(** [for (let i = n - 1; i >= 0; i--)], with [m] rows left above. *)
Fixpoint back_subst (aug : list (list Qc)) (n m : nat) (sol : list Qc)
  : list Qc :=
  match m with
  | O => sol
  | S i =>
      let rowi := nth i aug [] in
      let s := back_inner rowi sol (nth n rowi 0) (S i) (n - S i) in
      back_subst aug n i (set_nth sol i (s / nth i rowi 0))
  end.

(** [new Array(n)]: its holes are all written before they are read. *)
Definition solveLinearSystem (A : list (list Qc)) (B : list Qc)
  : result (list Qc) :=
  let n := length A in
  aug <- forward (augment A B) 0 n n ;;
  Ok (back_subst aug n n (repeat 0 n)).

(** ** calculateTransformMatrix *)

Definition calculateTransformMatrix (pdfPoints : list PDFPoint)
  (mapPoints : list MapPoint) : result TransformMatrix :=
  match pdfPoints, mapPoints with
  | [p1; p2; p3], [m1; m2; m3] =>
      let A := [[pdf_x p1; pdf_y p1; 1; 0; 0; 0];
                [0; 0; 0; pdf_x p1; pdf_y p1; 1];
                [pdf_x p2; pdf_y p2; 1; 0; 0; 0];
                [0; 0; 0; pdf_x p2; pdf_y p2; 1];
                [pdf_x p3; pdf_y p3; 1; 0; 0; 0];
                [0; 0; 0; pdf_x p3; pdf_y p3; 1]] in
      let B := [lng m1; lat m1; lng m2; lat m2; lng m3; lat m3] in
      solution <- solveLinearSystem A B ;;
      Ok {| a := nth 0 solution 0; b := nth 1 solution 0;
            e := nth 2 solution 0; c := nth 3 solution 0;
            d := nth 4 solution 0; f := nth 5 solution 0 |}
  | _, _ => Err InsufficientReferencePoints
  end.

(** ** Forward and inverse transforms *)

Definition transformPDFToGeo (pdfPoint : XY) (matrix : TransformMatrix)
  : MapPoint :=
  let lng := a matrix * x pdfPoint + b matrix * y pdfPoint + e matrix in
  let lat := c matrix * x pdfPoint + d matrix * y pdfPoint + f matrix in
  {| lat := lat; lng := lng |}.

Definition transformGeoToPDF (mapPoint : MapPoint) (matrix : TransformMatrix)
  : result XY :=
  let det := a matrix * d matrix - b matrix * c matrix in
  if below_eps det then Err SingularMatrix
  else
    let invA := d matrix / det in
    let invB := - b matrix / det in
    let invC := - c matrix / det in
    let invD := a matrix / det in
    let invE := (b matrix * f matrix - d matrix * e matrix) / det in
    let invF := (c matrix * e matrix - a matrix * f matrix) / det in
    let x := invA * lng mapPoint + invB * lat mapPoint + invE in
    let y := invC * lng mapPoint + invD * lat mapPoint + invF in
    Ok {| x := x; y := y |}.

(** ** transformPDFBoundsToGeoBounds *)

Record PDFBounds := mkPDFBounds { minX : Qc; minY : Qc; maxX : Qc; maxY : Qc }.

Record GeoBounds := mkGeoBounds { north : Qc; south : Qc; east : Qc; west : Qc }.

Definition Qcmax (u v : Qc) : Qc := if Qclt_le_dec u v then v else u.
Definition Qcmin (u v : Qc) : Qc := if Qclt_le_dec v u then v else u.

(** [Math.max(...xs)] and [Math.min(...xs)]; the arrays spread here always
    hold the four corners, so the empty case ([-Infinity] / [Infinity]) is
    never reached. *)
Definition Math_max (xs : list Qc) : Qc :=
  match xs with [] => 0 | h :: t => fold_left Qcmax t h end.
Definition Math_min (xs : list Qc) : Qc :=
  match xs with [] => 0 | h :: t => fold_left Qcmin t h end.

Definition pdf_corners (pdfBounds : PDFBounds) : list XY :=
  [ {| x := minX pdfBounds; y := minY pdfBounds |};
    {| x := maxX pdfBounds; y := minY pdfBounds |};
    {| x := maxX pdfBounds; y := maxY pdfBounds |};
    {| x := minX pdfBounds; y := maxY pdfBounds |} ].

Definition transformPDFBoundsToGeoBounds (pdfBounds : PDFBounds)
  (matrix : TransformMatrix) : GeoBounds :=
  let corners := pdf_corners pdfBounds in
  let transformedCorners :=
    map (fun corner => transformPDFToGeo corner matrix) corners in
  let lats := map lat transformedCorners in
  let lngs := map lng transformedCorners in
  {| north := Math_max lats; south := Math_min lats;
     east := Math_max lngs; west := Math_min lngs |}.

(** ** JavaScript numbers where they leave the rationals *)

(** The result of a division as JavaScript computes it (signed zeros are
    not distinguished). *)
Inductive JSNumber := Finite (v : Qc) | NaN | PosInfinity | NegInfinity.

Definition js_div (u v : Qc) : JSNumber :=
  if Qc_eq_dec v 0 then
    if Qc_eq_dec u 0 then NaN
    else if Qclt_le_dec 0 u then PosInfinity else NegInfinity
  else Finite (u / v).

Definition of_nat (n : nat) : Qc := Q2Qc (inject_Z (Z.of_nat n)).

(** ** The [Math] library

    The functions of the JavaScript [Math] object the distance code calls;
    every definition below is parametric in them. *)
Class JSMath := {
  Math_PI : Qc;
  Math_sin : Qc -> Qc;
  Math_cos : Qc -> Qc;
  Math_sqrt : Qc -> Qc;
  Math_atan2 : Qc -> Qc -> Qc }.

Section Accuracy.
Context `{JSMath}.

(** [calculateDistance] of coordinateTransform.ts (haversine). *)
Definition calculateDistance (point1 point2 : MapPoint) : Qc :=
  let R := qc 6371000 in
  let lat1Rad := (lat point1 * Math_PI) / qc 180 in
  let lat2Rad := (lat point2 * Math_PI) / qc 180 in
  let deltaLatRad := ((lat point2 - lat point1) * Math_PI) / qc 180 in
  let deltaLngRad := ((lng point2 - lng point1) * Math_PI) / qc 180 in
  let a := Math_sin (deltaLatRad / qc 2) * Math_sin (deltaLatRad / qc 2) +
           Math_cos lat1Rad * Math_cos lat2Rad *
           Math_sin (deltaLngRad / qc 2) * Math_sin (deltaLngRad / qc 2) in
  let c := qc 2 * Math_atan2 (Math_sqrt a) (Math_sqrt (1 - a)) in
  R * c.

Definition default_pdf : PDFPoint := mkPDFPoint 0 0 0.
Definition default_map : MapPoint := mkMapPoint 0 0.

(** [for (let i = 0; i < pdfPoints.length; i++) { … totalError += distance; }] *)
Fixpoint accuracy_loop (pdfPoints : list PDFPoint) (mapPoints : list MapPoint)
  (matrix : TransformMatrix) (i fuel : nat) (totalError : Qc) : Qc :=
  match fuel with
  | O => totalError
  | S fuel' =>
      let transformed := transformPDFToGeo (nth i pdfPoints default_pdf) matrix in
      let actual := nth i mapPoints default_map in
      let distance := calculateDistance transformed actual in
      accuracy_loop pdfPoints mapPoints matrix (S i) fuel' (totalError + distance)
  end.

Definition validateTransformAccuracy (pdfPoints : list PDFPoint)
  (mapPoints : list MapPoint) (matrix : TransformMatrix) : result JSNumber :=
  if negb (Nat.eqb (length pdfPoints) (length mapPoints))
  then Err MismatchedPointCounts
  else
    let totalError :=
      accuracy_loop pdfPoints mapPoints matrix 0 (length pdfPoints) 0 in
    Ok (js_div totalError (of_nat (length pdfPoints))).

End Accuracy.

(** ** The browser's geolocation service and [UserLocation] (types/index.ts) *)

(** What a [GeolocationPosition] carries, and what the service reports for
    one request: a position, or a [GeolocationPositionError] with its
    [code]. *)
Module dom.

Record GeolocationCoordinates := mkGeolocationCoordinates
  { latitude : Qc; longitude : Qc; accuracy : Qc }.

Record GeolocationPosition := mkGeolocationPosition
  { coords : GeolocationCoordinates; timestamp : Z }.

Inductive GeolocationAnswer :=
| PositionReported (position : GeolocationPosition)
| ErrorReported (code : Z).

(** [GeolocationPositionError.PERMISSION_DENIED], [POSITION_UNAVAILABLE]
    and [TIMEOUT]. *)
Definition PERMISSION_DENIED : Z := 1.
Definition POSITION_UNAVAILABLE : Z := 2.
Definition TIMEOUT : Z := 3.

End dom.

(** [UserLocation {lat; lng; accuracy?; timestamp}]; the fields carry a
    prefix because [lat] and [lng] already name the fields of [MapPoint]. *)
Record UserLocation := mkUserLocation
  { user_lat : Qc; user_lng : Qc; user_accuracy : option Qc; user_timestamp : Z }.

(** ** calculateDistance of the geolocation helpers *)

Module Geolocation.

Definition calculateDistance `{JSMath} (lat1 lng1 lat2 lng2 : Qc) : Qc :=
  let R := qc 6371000 in
  let dLat := (lat2 - lat1) * Math_PI / qc 180 in
  let dLng := (lng2 - lng1) * Math_PI / qc 180 in
  let a :=
    Math_sin (dLat / qc 2) * Math_sin (dLat / qc 2) +
    Math_cos (lat1 * Math_PI / qc 180) * Math_cos (lat2 * Math_PI / qc 180) *
    Math_sin (dLng / qc 2) * Math_sin (dLng / qc 2) in
  let c := qc 2 * Math_atan2 (Math_sqrt a) (Math_sqrt (1 - a)) in
  R * c.


(** The keys of [ERROR_MESSAGES]; each stands for its message. *)
Inductive ERROR_MESSAGES :=
| PERMISSION_DENIED | POSITION_UNAVAILABLE | TIMEOUT | NOT_SUPPORTED | UNKNOWN.

(** How the promise of [getCurrentPosition] settles: resolved with a
    location, or rejected with [new Error(message)]. *)
Inductive PromiseOutcome :=
| Resolved (location : UserLocation)
| Rejected (message : ERROR_MESSAGES).

(** [geolocation] is [None] when [navigator.geolocation] is missing, and
    otherwise the answer the service gives to the request. *)
Definition getCurrentPosition (geolocation : option dom.GeolocationAnswer)
  : PromiseOutcome :=
  match geolocation with
  | None => Rejected NOT_SUPPORTED
  | Some (dom.PositionReported position) =>
      let userLocation :=
        {| user_lat := dom.latitude (dom.coords position);
           user_lng := dom.longitude (dom.coords position);
           user_accuracy := Some (dom.accuracy (dom.coords position));
           user_timestamp := dom.timestamp position |} in
      Resolved userLocation
  | Some (dom.ErrorReported code) =>
      let errorMessage :=
        if Z.eqb code dom.PERMISSION_DENIED then PERMISSION_DENIED
        else if Z.eqb code dom.POSITION_UNAVAILABLE then POSITION_UNAVAILABLE
        else if Z.eqb code dom.TIMEOUT then TIMEOUT
        else UNKNOWN in
      Rejected errorMessage
  end.

(** A call of one of the two callbacks given to [watchPosition]. *)
Inductive WatchEvent :=
| onSuccess (location : UserLocation)
| onError (message : ERROR_MESSAGES).

(** [geolocation] is [None] when [navigator.geolocation] is missing, and
    otherwise the watch id the service returns together with the answers it
    then delivers, in order.  The result is the returned id ([None] for
    [null]) and the callbacks called, in order. *)
Definition watchPosition
  (geolocation : option (Z * list dom.GeolocationAnswer))
  : option Z * list WatchEvent :=
  match geolocation with
  | None => (None, onError NOT_SUPPORTED :: nil)
  | Some (watchId, answers) =>
      (Some watchId,
       map (fun answer =>
              match answer with
              | dom.PositionReported position =>
                  let userLocation :=
                    {| user_lat := dom.latitude (dom.coords position);
                       user_lng := dom.longitude (dom.coords position);
                       user_accuracy := Some (dom.accuracy (dom.coords position));
                       user_timestamp := dom.timestamp position |} in
                  onSuccess userLocation
              | dom.ErrorReported code =>
                  let errorMessage :=
                    if Z.eqb code dom.PERMISSION_DENIED then PERMISSION_DENIED
                    else if Z.eqb code dom.POSITION_UNAVAILABLE then POSITION_UNAVAILABLE
                    else if Z.eqb code dom.TIMEOUT then TIMEOUT
                    else UNKNOWN in
                  onError errorMessage
              end) answers)
  end.

End Geolocation.

(** ** The Google Maps classes [updateOverlayPosition] uses

    As documented by the Maps JavaScript API: the [LatLng] constructor
    clamps the latitude to [[-90, 90]] and wraps a longitude outside
    [[-180, 180]] back into that range; a [LatLngBounds] is built from its
    south-west and north-east corners and returns them, except that its
    longitude interval turns an edge at -180 into 180 (see
    [new_LatLngBounds]). *)
Module google_maps.

Record LatLng := mkLatLng { lat : Qc; lng : Qc }.

Definition clamp_lat (v : Qc) : Qc :=
  if Qclt_le_dec v (qc (-90)) then qc (-90)
  else if Qclt_le_dec (qc 90) v then qc 90 else v.

Definition wrap_lng (v : Qc) : Qc :=
  if Qclt_le_dec v (qc (-180)) then
    Q2Qc (this v - 360 * inject_Z (Qfloor ((this v + 180) / 360)))
  else if Qclt_le_dec (qc 180) v then
    Q2Qc (this v - 360 * inject_Z (Qfloor ((this v + 180) / 360)))
  else v.

(** [new google.maps.LatLng(lat, lng)] *)
Definition new_LatLng (lat lng : Qc) : LatLng :=
  {| lat := clamp_lat lat; lng := wrap_lng lng |}.

Record LatLngBounds := mkLatLngBounds { sw : LatLng; ne : LatLng }.

Definition qc_eqb (u v : Qc) : bool := if Qc_eq_dec u v then true else false.

(** [new google.maps.LatLngBounds(sw, ne)]: the latitudes are kept; the
    longitude interval [[lo, hi] = [sw.lng(), ne.lng()]] is normalised as
    the API's longitude interval does:
    [if (lo == -180 && hi != 180) lo = 180;
     if (hi == -180 && lo != 180) hi = 180;] *)
Definition new_LatLngBounds (sw ne : LatLng) : LatLngBounds :=
  let lo := lng sw in
  let hi := lng ne in
  let lo := if qc_eqb lo (qc (-180)) && negb (qc_eqb hi (qc 180)) then qc 180 else lo in
  let hi := if qc_eqb hi (qc (-180)) && negb (qc_eqb lo (qc 180)) then qc 180 else hi in
  {| sw := mkLatLng (lat sw) lo; ne := mkLatLng (lat ne) hi |}.

Definition getNorthEast (bounds : LatLngBounds) : LatLng := ne bounds.
Definition getSouthWest (bounds : LatLngBounds) : LatLng := sw bounds.


(** A [GroundOverlay]: its image url, bounds, options and the map it is
    attached to ([MapUndefined] until [setMap] is called). *)
Inductive MapRef := MapUndefined | MapNull | MapInstance (id : nat).

Record GroundOverlayOptions := mkGroundOverlayOptions
  { opt_opacity : Qc; opt_clickable : bool; opt_zIndex : option Z }.

Record GroundOverlay := mkGroundOverlay
  { go_url : String.string; go_bounds : option LatLngBounds; go_opacity : Qc;
    go_clickable : bool; go_zIndex : option Z; go_map : MapRef }.

(** [new google.maps.GroundOverlay(url, bounds, opts)] *)
Definition new_GroundOverlay (url : String.string) (bounds : option LatLngBounds)
  (opts : GroundOverlayOptions) : GroundOverlay :=
  {| go_url := url; go_bounds := bounds; go_opacity := opt_opacity opts;
     go_clickable := opt_clickable opts; go_zIndex := opt_zIndex opts;
     go_map := MapUndefined |}.

Definition setMap (overlay : GroundOverlay) (map : MapRef) : GroundOverlay :=
  {| go_url := go_url overlay; go_bounds := go_bounds overlay;
     go_opacity := go_opacity overlay; go_clickable := go_clickable overlay;
     go_zIndex := go_zIndex overlay; go_map := map |}.

Definition setOpacity (overlay : GroundOverlay) (opacity : Qc) : GroundOverlay :=
  {| go_url := go_url overlay; go_bounds := go_bounds overlay;
     go_opacity := opacity; go_clickable := go_clickable overlay;
     go_zIndex := go_zIndex overlay; go_map := go_map overlay |}.

Definition getBounds (overlay : GroundOverlay) : option LatLngBounds := go_bounds overlay.
Definition getOpacity (overlay : GroundOverlay) : Qc := go_opacity overlay.
Definition getUrl (overlay : GroundOverlay) : String.string := go_url overlay.
Definition getMap (overlay : GroundOverlay) : MapRef := go_map overlay.

End google_maps.

(** ** updateOverlayPosition (utils/mapHelpers.ts) *)

Definition updateOverlayPosition (currentBounds : google_maps.LatLngBounds)
  (newCenter : MapPoint) : google_maps.LatLngBounds :=
  let northeast := google_maps.getNorthEast currentBounds in
  let southwest := google_maps.getSouthWest currentBounds in
  let latSpan := google_maps.lat northeast - google_maps.lat southwest in
  let lngSpan := google_maps.lng northeast - google_maps.lng southwest in
  google_maps.new_LatLngBounds
    (google_maps.new_LatLng (lat newCenter - latSpan / qc 2)
                            (lng newCenter - lngSpan / qc 2))
    (google_maps.new_LatLng (lat newCenter + latSpan / qc 2)
                            (lng newCenter + lngSpan / qc 2)).

(** ** JavaScript comparisons on numbers *)

Definition js_ge (u v : Qc) : bool := if Qclt_le_dec u v then false else true.
Definition js_le (u v : Qc) : bool := js_ge v u.
Definition js_gt (u v : Qc) : bool := if Qclt_le_dec v u then true else false.

(** ** validateOverlayBounds (utils/mapHelpers.ts)

    [bounds] is [None] for a falsy argument.  For bounds of the model none of
    the accessors throws, so the [catch] branch is not reached. *)

Definition validateOverlayBounds (bounds : option google_maps.LatLngBounds) : bool :=
  match bounds with
  | None => false
  | Some bounds =>
      let northeast := google_maps.getNorthEast bounds in
      let southwest := google_maps.getSouthWest bounds in
      let latValid := js_ge (google_maps.lat southwest) (qc (-90)) &&
                      js_le (google_maps.lat northeast) (qc 90) in
      let lngValid := js_ge (google_maps.lng southwest) (qc (-180)) &&
                      js_le (google_maps.lng northeast) (qc 180) in
      let sizeValid := js_gt (google_maps.lat northeast) (google_maps.lat southwest) &&
                       js_gt (google_maps.lng northeast) (google_maps.lng southwest) in
      latValid && lngValid && sizeValid
  end.

(** ** utils/groundOverlay.ts

    A thrown error is [Thrown], with the step that failed wrapping the
    error of [calculateTransformMatrix] it caught as the source's message
    does.  [overlay] and [bounds] arguments typed [any] are [None] for
    [null]/[undefined]. *)
Module groundOverlay.

(** What a wrapped error came from: an error of the transform module, or
    the error [getPDFPageSize] or [generateHighQualityPDFImage] throws. *)
Inductive Cause :=
| TransformFailed (err : TransformError)
| PageSizeFailed
| ImageFailed.

Inductive OverlayError :=
| CreationFailed (cause : Cause)
| RestorationFailed (cause : Cause)
| OpacityUpdateFailed
| MetadataFailed.

Inductive outcome (A : Type) := Done (v : A) | Thrown (err : OverlayError).
Arguments Done {A} v.
Arguments Thrown {A} err.

(** A [File] (and the [pdfFile] of a saved configuration): its name and
    bytes. *)
Record File := mkFile { file_name : String.string; file_data : list Byte.byte }.

Record PageSize := mkPageSize { width : Qc; height : Qc }.

Record GroundOverlayOptions := mkGroundOverlayOptions
  { options_opacity : Qc; options_clickable : bool }.

Definition default_options : GroundOverlayOptions :=
  {| options_opacity := qc 0.7; options_clickable := false |}.

(** [OverlayConfig] (types/index.ts). *)
Record ReferencePoints := mkReferencePoints
  { pdf : list PDFPoint; map : list MapPoint }.

Record Position := mkPosition
  { bounds : option google_maps.LatLngBounds; center : MapPoint }.

Record OverlayConfig := mkOverlayConfig
  { id : String.string; name : String.string; pdfFile : File;
    referencePoints : ReferencePoints; position : Position; opacity : Qc;
    createdAt : Z; updatedAt : Z }.

(** What one call of [createGroundOverlay] reads from its environment: the
    id [generateOverlayId] returns, [new Date().toLocaleString()] and the
    two [new Date()] timestamps. *)
Record CallEnv := mkCallEnv
  { generatedId : String.string; localeString : String.string;
    createdNow : Z; updatedNow : Z }.

Record Created := mkCreated
  { overlay : google_maps.GroundOverlay; config : OverlayConfig;
    transformMatrix : TransformMatrix }.

Record Restored := mkRestored
  { restored_overlay : google_maps.GroundOverlay;
    restored_transformMatrix : TransformMatrix }.

Record OverlayMetadata := mkOverlayMetadata
  { meta_bounds : option google_maps.LatLngBounds; meta_opacity : Qc;
    meta_url : String.string; meta_visible : bool }.

Section WithPDF.

(** [generateHighQualityPDFImage(file, 1, 2048).imageData] and
    [getPDFPageSize(file)] of utils/pdfToImage.ts, as functions of the
    file's bytes; [None] is the error they throw (pdfToImage.ts, lines 239
    and 288).  [pdfFile.arrayBuffer()] is taken not to fail. *)
Variable generateHighQualityPDFImage : list Byte.byte -> option String.string.
Variable getPDFPageSize : list Byte.byte -> option PageSize.

Definition createGroundOverlay (map0 : google_maps.MapRef) (pdfFile0 : File)
  (pdfPoints : list PDFPoint) (mapPoints : list MapPoint)
  (options : GroundOverlayOptions) (env : CallEnv) : outcome Created :=
  if negb (Nat.eqb (length pdfPoints) 3) || negb (Nat.eqb (length mapPoints) 3)
  then Thrown (CreationFailed (TransformFailed InsufficientReferencePoints))
  else
    match calculateTransformMatrix pdfPoints mapPoints with
    | Err err => Thrown (CreationFailed (TransformFailed err))
    | Ok transformMatrix =>
    match getPDFPageSize (file_data pdfFile0) with
    | None => Thrown (CreationFailed PageSizeFailed)
    | Some pageSize =>
    match generateHighQualityPDFImage (file_data pdfFile0) with
    | None => Thrown (CreationFailed ImageFailed)
    | Some pdfImage =>
        let geoBounds :=
          transformPDFBoundsToGeoBounds
            {| minX := 0; minY := 0; maxX := width pageSize; maxY := height pageSize |}
            transformMatrix in
        let bounds :=
          google_maps.new_LatLngBounds
            (google_maps.new_LatLng (south geoBounds) (west geoBounds))
            (google_maps.new_LatLng (north geoBounds) (east geoBounds)) in
        let overlay :=
          google_maps.new_GroundOverlay pdfImage (Some bounds)
            {| google_maps.opt_opacity := options_opacity options;
               google_maps.opt_clickable := options_clickable options;
               google_maps.opt_zIndex := None |} in
        let overlay := google_maps.setMap overlay map0 in
        let pdfData := file_data pdfFile0 in
        let config :=
          {| id := generatedId env;
             name := String.append (file_name pdfFile0)
                       (String.append " - " (localeString env));
             pdfFile := {| file_name := file_name pdfFile0; file_data := pdfData |};
             referencePoints := mkReferencePoints pdfPoints mapPoints;
             position :=
               mkPosition (Some bounds)
                 {| lat := (north geoBounds + south geoBounds) / qc 2;
                    lng := (east geoBounds + west geoBounds) / qc 2 |};
             opacity := options_opacity options;
             createdAt := createdNow env;
             updatedAt := updatedNow env |} in
        Done {| overlay := overlay; config := config;
                transformMatrix := transformMatrix |}
    end
    end
    end.

Definition restoreGroundOverlay (map0 : google_maps.MapRef) (config0 : OverlayConfig)
  : outcome Restored :=
  let pdfFile0 := {| file_name := file_name (pdfFile config0);
                     file_data := file_data (pdfFile config0) |} in
  match calculateTransformMatrix (pdf (referencePoints config0))
                                 (map (referencePoints config0)) with
  | Err err => Thrown (RestorationFailed (TransformFailed err))
  | Ok transformMatrix =>
  match generateHighQualityPDFImage (file_data pdfFile0) with
  | None => Thrown (RestorationFailed ImageFailed)
  | Some pdfImage =>
      let overlay :=
        google_maps.new_GroundOverlay pdfImage (bounds (position config0))
          {| google_maps.opt_opacity := opacity config0;
             google_maps.opt_clickable := false;
             google_maps.opt_zIndex := Some 1%Z |} in
      let overlay := google_maps.setMap overlay map0 in
      Done {| restored_overlay := overlay;
              restored_transformMatrix := transformMatrix |}
  end
  end.

End WithPDF.

Definition updateOverlayOpacity (overlay0 : option google_maps.GroundOverlay)
  (opacity0 : Qc) : outcome google_maps.GroundOverlay :=
  match overlay0 with
  | None => Thrown OpacityUpdateFailed
  | Some overlay0 =>
      let clampedOpacity := Math_max [0; Math_min [1; opacity0]] in
      Done (google_maps.setOpacity overlay0 clampedOpacity)
  end.

Definition removeGroundOverlay (overlay0 : option google_maps.GroundOverlay)
  : option google_maps.GroundOverlay :=
  match overlay0 with
  | Some overlay0 => Some (google_maps.setMap overlay0 google_maps.MapNull)
  | None => None
  end.

Definition getOverlayMetadata (overlay0 : option google_maps.GroundOverlay)
  : outcome OverlayMetadata :=
  match overlay0 with
  | None => Thrown MetadataFailed
  | Some overlay0 =>
      Done {| meta_bounds := google_maps.getBounds overlay0;
              meta_opacity := google_maps.getOpacity overlay0;
              meta_url := google_maps.getUrl overlay0;
              meta_visible :=
                match google_maps.getMap overlay0 with
                | google_maps.MapNull => false
                | _ => true
                end |}
  end.

Definition validateOverlayBounds (bounds0 : option google_maps.LatLngBounds) : bool :=
  match bounds0 with
  | None => false
  | Some bounds0 =>
      let northeast := google_maps.getNorthEast bounds0 in
      let southwest := google_maps.getSouthWest bounds0 in
      let latValid := js_ge (google_maps.lat southwest) (qc (-90)) &&
                      js_le (google_maps.lat northeast) (qc 90) in
      let lngValid := js_ge (google_maps.lng southwest) (qc (-180)) &&
                      js_le (google_maps.lng northeast) (qc 180) in
      let sizeValid := js_gt (google_maps.lat northeast) (google_maps.lat southwest) &&
                       js_gt (google_maps.lng northeast) (google_maps.lng southwest) in
      latValid && lngValid && sizeValid
  end.

End groundOverlay.


(** * Auxiliary definitions of the proofs *)

(** One pass of the outer loop of [solveLinearSystem] at column [i],
    without its singularity check: swap in the pivot row, then eliminate
    below it. *)
Definition column_step (aug : list (list Qc)) (i n : nat) : list (list Qc) :=
  let aug1 := swap_rows aug i (pivot_row aug i n) in
  elim_rows aug1 i (S i) (n - S i) n.

(** The augmented matrix at the start of the pass for column [i]. *)
Fixpoint state_at (aug : list (list Qc)) (i n : nat) : list (list Qc) :=
  match i with
  | O => aug
  | S i' => column_step (state_at aug i' n) i' n
  end.

(** [augmented[i][i]] after the swap of the pass for column [i]: the value
    the singularity check [Math.abs(augmented[i][i]) < 1e-10] reads. *)
Definition pivot_at (aug : list (list Qc)) (i n : nat) : Qc :=
  let M := state_at aug i n in
  get (swap_rows M i (pivot_row M i n)) i i.

Fixpoint sumQ (g : nat -> Qc) (n : nat) : Qc :=
  match n with
  | O => 0
  | S n' => g O + sumQ (fun t => g (S t)) n'
  end.

Definition dot (r xs : list Qc) (n : nat) : Qc :=
  sumQ (fun j => nth j r 0 * nth j xs 0) n.

(** Row [r] of an augmented matrix holds at [xs]. *)
Definition row_sat (n : nat) (xs r : list Qc) : Prop := dot r xs n = nth n r 0.

Definition sat (n : nat) (xs : list Qc) (M : list (list Qc)) : Prop :=
  forall k, (k < n)%nat -> row_sat n xs (nth k M []).

Definition shape (n : nat) (M : list (list Qc)) : Prop :=
  length M = n /\ forall k, (k < n)%nat -> length (nth k M []) = S n.

(** Columns [< i] are zero below the diagonal. *)
Definition lower_zero (n i : nat) (M : list (list Qc)) : Prop :=
  forall k j, (k < n)%nat -> (j < i)%nat -> (j < k)%nat -> get M k j = 0.

Definition pivots_nonzero (i : nat) (M : list (list Qc)) : Prop :=
  forall k, (k < i)%nat -> get M k k <> 0.

(** An [n × n] coefficient matrix. *)
Definition square (n : nat) (A : list (list Qc)) : Prop :=
  length A = n /\ forall k, (k < n)%nat -> length (nth k A []) = n.

(** [A · xs = B], row by row. *)
Definition solves (A : list (list Qc)) (xs B : list Qc) : Prop :=
  forall k, (k < length A)%nat ->
    sumQ (fun j => get A k j * nth j xs 0) (length A) = nth k B 0.

Definition row_agree (n : nat) (r r' : list Qc) : Prop :=
  length r = length r' /\ forall j, (j < n)%nat -> nth j r 0 = nth j r' 0.

(** Two augmented matrices equal on their coefficient columns [< n]. *)
Definition agree (n : nat) (M M' : list (list Qc)) : Prop :=
  length M = length M' /\ forall k, row_agree n (nth k M []) (nth k M' []).

(** The coefficient matrix [A] that [calculateTransformMatrix] builds. *)
Definition system6 (p1 p2 p3 : PDFPoint) : list (list Qc) :=
  [[pdf_x p1; pdf_y p1; 1; 0; 0; 0];
   [0; 0; 0; pdf_x p1; pdf_y p1; 1];
   [pdf_x p2; pdf_y p2; 1; 0; 0; 0];
   [0; 0; 0; pdf_x p2; pdf_y p2; 1];
   [pdf_x p3; pdf_y p3; 1; 0; 0; 0];
   [0; 0; 0; pdf_x p3; pdf_y p3; 1]].

(** Three source points on one line (the cross product of [p2 - p1] and
    [p3 - p1] vanishes). *)
Definition collinear (p1 p2 p3 : PDFPoint) : Prop :=
  (pdf_x p2 - pdf_x p1) * (pdf_y p3 - pdf_y p1) -
  (pdf_x p3 - pdf_x p1) * (pdf_y p2 - pdf_y p1) = 0.

(** An example fixture of the test suite, used by the witnesses. *)
Definition fixture_map : list MapPoint :=
  [mkMapPoint (qc 34.7304) (qc 136.5085); mkMapPoint (qc 34.7304) (qc 136.6085);
   mkMapPoint (qc 34.6304) (qc 136.5085)].

Definition fixture_pdf : list PDFPoint :=
  [mkPDFPoint (qc 100) (qc 100) 1; mkPDFPoint (qc 500) (qc 100) 1;
   mkPDFPoint (qc 100) (qc 400) 1].

Definition sample_matrix : TransformMatrix :=
  {| a := qc (1 # 4000); b := 0; c := 0; d := qc (-1 # 3000);
     e := qc 136.4835; f := qc 34.7637 |}.

Ltac qc_decide := repeat split; vm_compute; first [reflexivity | intro; discriminate].

Definition lat_span (B : google_maps.LatLngBounds) : Qc :=
  google_maps.lat (google_maps.getNorthEast B) - google_maps.lat (google_maps.getSouthWest B).
Definition lng_span (B : google_maps.LatLngBounds) : Qc :=
  google_maps.lng (google_maps.getNorthEast B) - google_maps.lng (google_maps.getSouthWest B).

Definition sample_bounds : google_maps.LatLngBounds :=
  google_maps.new_LatLngBounds (google_maps.new_LatLng 0 0)
                               (google_maps.new_LatLng (qc 2) (qc 2)).

(** The distance between the transformed [i]-th source point and the
    [i]-th target point. *)
Definition pair_error {M : JSMath} (pdfPoints : list PDFPoint) (mapPoints : list MapPoint)
  (matrix : TransformMatrix) (i : nat) : Qc :=
  calculateDistance (transformPDFToGeo (nth i pdfPoints default_pdf) matrix)
                    (nth i mapPoints default_map).

(** A stand-in for the [Math] object (small-angle approximations), to
    evaluate the validator on concrete inputs. *)
Definition sample_math : JSMath :=
  {| Math_PI := qc 3.14159; Math_sin := fun t => t; Math_cos := fun _ => 1;
     Math_sqrt := fun t => t; Math_atan2 := fun u _ => u |}.

(** * Proofs *)

(** ** Arrays *)

Lemma set_nth_length {A} (l : list A) i v : length (set_nth l i v) = length l.
Proof.
  revert i; induction l as [|h t IH]; intros [|i]; simpl; auto.
Qed.

Lemma nth_set_nth_eq {A} (l : list A) i v dd :
  (i < length l)%nat -> nth i (set_nth l i v) dd = v.
Proof.
  revert i; induction l as [|h t IH]; intros [|i] Hi; simpl in *; try lia; auto.
  apply IH; lia.
Qed.

Lemma nth_set_nth_ne {A} (l : list A) i j v dd :
  i <> j -> nth j (set_nth l i v) dd = nth j l dd.
Proof.
  revert i j; induction l as [|h t IH]; intros [|i] [|j] Hij; simpl; auto;
    try congruence.
Qed.

Lemma set_nth_out {A} (l : list A) i v : (length l <= i)%nat -> set_nth l i v = l.
Proof.
  revert i; induction l as [|h t IH]; intros [|i] Hi; simpl in *; try lia; auto.
  rewrite IH; auto; lia.
Qed.

(** ** Finite sums *)

Lemma sumQ_ext n : forall g h, (forall t, (t < n)%nat -> g t = h t) ->
  sumQ g n = sumQ h n.
Proof.
  induction n as [|n IH]; intros g h Hgh; simpl; auto.
  rewrite (Hgh O) by lia. f_equal. apply IH. intros t Ht. apply Hgh. lia.
Qed.

Lemma sumQ_lin n : forall g h u s,
  (forall t, (t < n)%nat -> g t = h t + s * u t) ->
  sumQ g n = sumQ h n + s * sumQ u n.
Proof.
  induction n as [|n IH]; intros g h u s Hg; simpl.
  - ring.
  - rewrite (Hg O) by lia.
    rewrite (IH (fun t => g (S t)) (fun t => h (S t)) (fun t => u (S t)) s).
    + ring.
    + intros t Ht. apply Hg. lia.
Qed.

Lemma sumQ_zero n : forall g, (forall t, (t < n)%nat -> g t = 0) -> sumQ g n = 0.
Proof.
  induction n as [|n IH]; intros g Hg; simpl; auto.
  rewrite (Hg O) by lia. rewrite IH; [ring|]. intros t Ht. apply Hg. lia.
Qed.

Lemma sumQ_split m : forall n g,
  sumQ g (m + n) = sumQ g m + sumQ (fun t => g (m + t)%nat) n.
Proof.
  induction m as [|m IH]; intros n g; simpl.
  - rewrite Qcplus_0_l. reflexivity.
  - rewrite IH. rewrite Qcplus_assoc. reflexivity.
Qed.

(** ** Row operations of the elimination *)

Lemma elim_cols_length ri fct fuel : forall rk j,
  length (elim_cols ri rk fct j fuel) = length rk.
Proof.
  induction fuel as [|fuel IH]; intros rk j; simpl; auto.
  rewrite IH. apply set_nth_length.
Qed.

Lemma nth_elim_cols_out ri fct fuel : forall rk j t,
  (t < j \/ j + fuel <= t)%nat ->
  nth t (elim_cols ri rk fct j fuel) 0 = nth t rk 0.
Proof.
  induction fuel as [|fuel IH]; intros rk j t Ht; simpl; auto.
  rewrite IH by lia. apply nth_set_nth_ne. lia.
Qed.

Lemma nth_elim_cols_in ri fct fuel : forall rk j t,
  (j <= t < j + fuel)%nat -> (t < length rk)%nat ->
  nth t (elim_cols ri rk fct j fuel) 0 = nth t rk 0 - fct * nth t ri 0.
Proof.
  induction fuel as [|fuel IH]; intros rk j t Ht Hl; simpl; [lia|].
  destruct (Nat.eq_dec t j) as [->|Hne].
  - rewrite nth_elim_cols_out by lia. apply nth_set_nth_eq. auto.
  - rewrite IH by (rewrite ?set_nth_length; lia).
    rewrite nth_set_nth_ne by lia. reflexivity.
Qed.

Lemma elim_rows_length aug i fuel n : forall k,
  length (elim_rows aug i k fuel n) = length aug.
Proof.
  revert aug; induction fuel as [|fuel IH]; intros aug k; simpl; auto.
  rewrite IH. apply set_nth_length.
Qed.

Lemma elim_row_of_set aug i n k t r :
  i <> k -> t <> k -> elim_row_of (set_nth aug k r) i n t = elim_row_of aug i n t.
Proof.
  intros Hi Ht. unfold elim_row_of.
  rewrite !nth_set_nth_ne by congruence. reflexivity.
Qed.

Lemma nth_elim_rows_out i fuel n : forall aug k t,
  (t < k \/ k + fuel <= t)%nat ->
  nth t (elim_rows aug i k fuel n) [] = nth t aug [].
Proof.
  induction fuel as [|fuel IH]; intros aug k t Ht; simpl; auto.
  rewrite IH by lia. apply nth_set_nth_ne. lia.
Qed.

Lemma nth_elim_rows_in i fuel n : forall aug k t,
  (i < k)%nat -> (k <= t < k + fuel)%nat -> (t < length aug)%nat ->
  nth t (elim_rows aug i k fuel n) [] = elim_row_of aug i n t.
Proof.
  induction fuel as [|fuel IH]; intros aug k t Hik Ht Hl; simpl; [lia|].
  destruct (Nat.eq_dec t k) as [->|Hne].
  - rewrite nth_elim_rows_out by lia. apply nth_set_nth_eq. auto.
  - rewrite IH by (rewrite ?set_nth_length; lia).
    apply elim_row_of_set; lia.
Qed.

Lemma swap_rows_length aug i r : length (swap_rows aug i r) = length aug.
Proof. unfold swap_rows. rewrite !set_nth_length. reflexivity. Qed.

Lemma nth_swap_rows aug i r t : (i < length aug)%nat -> (r < length aug)%nat ->
  nth t (swap_rows aug i r) [] =
  if Nat.eq_dec t r then nth i aug []
  else if Nat.eq_dec t i then nth r aug [] else nth t aug [].
Proof.
  intros Hi Hr. unfold swap_rows.
  destruct (Nat.eq_dec t r) as [->|Hr'].
  - apply nth_set_nth_eq. rewrite set_nth_length. auto.
  - rewrite nth_set_nth_ne by congruence.
    destruct (Nat.eq_dec t i) as [->|Hi'].
    + apply nth_set_nth_eq. auto.
    + apply nth_set_nth_ne. congruence.
Qed.

Lemma pivot_loop_range aug i fuel : forall k m,
  let r := pivot_loop aug i k fuel m in
  r = m \/ (k <= r < k + fuel)%nat.
Proof.
  induction fuel as [|fuel IH]; intros k m; simpl; [auto|].
  destruct (Qclt_le_dec _ _).
  - destruct (IH (S k) k) as [H1|H1]; lia.
  - destruct (IH (S k) m) as [H1|H1]; lia.
Qed.

Lemma pivot_row_range aug i n : (i < n)%nat ->
  (i <= pivot_row aug i n < n)%nat.
Proof.
  intros Hin. unfold pivot_row.
  destruct (pivot_loop_range aug i (n - S i) (S i) i); lia.
Qed.

Lemma below_eps_false u : below_eps u = false -> u <> 0.
Proof.
  unfold below_eps. destruct (Qclt_le_dec (Qcabs u) eps) as [_|Hle]; [discriminate|].
  intros _ ->. revert Hle. vm_compute. intro H. apply H. reflexivity.
Qed.

(** ** The forward elimination *)

Lemma swap_step n M i r : (i <= r < n)%nat ->
  shape n M -> lower_zero n i M -> pivots_nonzero i M ->
  shape n (swap_rows M i r) /\ lower_zero n i (swap_rows M i r) /\
  pivots_nonzero i (swap_rows M i r) /\
  (forall xs, sat n xs (swap_rows M i r) -> sat n xs M).
Proof.
  intros Hr [Hlen Hrows] Hz Hp.
  assert (Hn : forall t, nth t (swap_rows M i r) [] =
    if Nat.eq_dec t r then nth i M []
    else if Nat.eq_dec t i then nth r M [] else nth t M [])
    by (intro t; apply nth_swap_rows; lia).
  split; [|split; [|split]].
  - split; [rewrite swap_rows_length; auto|].
    intros k Hk. rewrite Hn.
    destruct (Nat.eq_dec k r); [|destruct (Nat.eq_dec k i)]; apply Hrows; lia.
  - intros k j Hk Hj Hjk. unfold get. rewrite Hn.
    destruct (Nat.eq_dec k r); [|destruct (Nat.eq_dec k i)]; apply Hz; lia.
  - intros k Hk. unfold get. rewrite Hn.
    destruct (Nat.eq_dec k r); [lia|]. destruct (Nat.eq_dec k i); [lia|].
    apply Hp. lia.
  - intros xs Hs k Hk.
    destruct (Nat.eq_dec k i) as [->|Hki].
    + specialize (Hs r ltac:(lia)). rewrite Hn in Hs.
      destruct (Nat.eq_dec r r); [exact Hs|congruence].
    + destruct (Nat.eq_dec k r) as [->|Hkr].
      * specialize (Hs i ltac:(lia)). rewrite Hn in Hs.
        destruct (Nat.eq_dec i r); [congruence|].
        destruct (Nat.eq_dec i i); [exact Hs|congruence].
      * specialize (Hs k Hk). rewrite Hn in Hs.
        destruct (Nat.eq_dec k r); [congruence|].
        destruct (Nat.eq_dec k i); [congruence|exact Hs].
Qed.

Lemma elim_step n M i : (i < n)%nat ->
  shape n M -> lower_zero n i M -> pivots_nonzero i M -> get M i i <> 0 ->
  shape n (elim_rows M i (S i) (n - S i) n) /\
  lower_zero n (S i) (elim_rows M i (S i) (n - S i) n) /\
  pivots_nonzero (S i) (elim_rows M i (S i) (n - S i) n) /\
  (forall xs, sat n xs (elim_rows M i (S i) (n - S i) n) -> sat n xs M).
Proof.
  intros Hi [Hlen Hrows] Hz Hp Hpiv.
  set (M2 := elim_rows M i (S i) (n - S i) n).
  assert (Hlow : forall t, (t <= i)%nat -> nth t M2 [] = nth t M [])
    by (intros; apply nth_elim_rows_out; lia).
  assert (Hup : forall t, (i < t < n)%nat -> nth t M2 [] = elim_row_of M i n t)
    by (intros; apply nth_elim_rows_in; lia).
  assert (Hout : forall t j, (i < t < n)%nat -> (j < i)%nat ->
                   get M2 t j = get M t j).
  { intros t j Ht Hj. unfold get. rewrite Hup by lia. unfold elim_row_of.
    apply nth_elim_cols_out. lia. }
  assert (Hin : forall t j, (i < t < n)%nat -> (i <= j <= n)%nat ->
            get M2 t j = get M t j - get M t i / get M i i * get M i j).
  { intros t j Ht Hj. unfold get. rewrite Hup by lia. unfold elim_row_of.
    apply nth_elim_cols_in; [lia|]. rewrite Hrows; lia. }
  split; [|split; [|split]].
  - split; [unfold M2; rewrite elim_rows_length; auto|].
    intros k Hk. destruct (le_lt_dec k i).
    + rewrite Hlow by lia. apply Hrows; lia.
    + rewrite Hup by lia. unfold elim_row_of. rewrite elim_cols_length.
      apply Hrows; lia.
  - intros k j Hk Hj Hjk. destruct (le_lt_dec k i).
    + unfold get. rewrite Hlow by lia. apply Hz; lia.
    + destruct (Nat.eq_dec j i) as [->|Hji].
      * rewrite Hin by lia. field. exact Hpiv.
      * rewrite Hout by lia. apply Hz; lia.
  - intros k Hk. unfold get. rewrite Hlow by lia.
    destruct (Nat.eq_dec k i) as [->|Hki]; [exact Hpiv|]. apply Hp; lia.
  - intros xs Hs k Hk. destruct (le_lt_dec k i).
    + specialize (Hs k Hk). rewrite Hlow in Hs by lia. exact Hs.
    + pose proof (Hs k Hk) as Hk2. pose proof (Hs i Hi) as Hi2.
      rewrite Hlow in Hi2 by lia.
      unfold row_sat, dot in *.
      set (fct := get M k i / get M i i).
      rewrite (sumQ_lin n _ (fun j => nth j (nth k M2 []) 0 * nth j xs 0)
                 (fun j => nth j (nth i M []) 0 * nth j xs 0) fct).
      * rewrite Hk2, Hi2.
        change (nth n (nth k M2 []) 0) with (get M2 k n).
        change (nth n (nth i M []) 0) with (get M i n).
        change (nth n (nth k M []) 0) with (get M k n).
        rewrite Hin by lia. fold fct. ring.
      * intros j Hj.
        change (nth j (nth k M2 []) 0) with (get M2 k j).
        change (nth j (nth k M []) 0) with (get M k j).
        change (nth j (nth i M []) 0) with (get M i j).
        destruct (le_lt_dec i j).
        -- rewrite Hin by lia. fold fct. ring.
        -- rewrite Hout by lia. rewrite (Hz i j) by lia. ring.
Qed.

Lemma forward_correct n fuel : forall M i U, (i + fuel = n)%nat ->
  shape n M -> lower_zero n i M -> pivots_nonzero i M ->
  forward M i fuel n = Ok U ->
  shape n U /\ lower_zero n n U /\ pivots_nonzero n U /\
  (forall xs, sat n xs U -> sat n xs M).
Proof.
  induction fuel as [|fuel IH]; intros M i U Hi Hs Hz Hp Hf; simpl in Hf.
  - injection Hf as <-. assert (i = n) as -> by lia.
    refine (conj Hs (conj Hz (conj Hp _))). auto.
  - assert (Hr : (i <= pivot_row M i n < n)%nat) by (apply pivot_row_range; lia).
    destruct (swap_step n M i _ Hr Hs Hz Hp) as (Hs1 & Hz1 & Hp1 & Hsat1).
    destruct (below_eps _) eqn:Hb in Hf; [discriminate|].
    apply below_eps_false in Hb.
    destruct (elim_step n _ i ltac:(lia) Hs1 Hz1 Hp1 Hb)
      as (Hs2 & Hz2 & Hp2 & Hsat2).
    destruct (IH _ (S i) U ltac:(lia) Hs2 Hz2 Hp2 Hf) as (Hs3 & Hz3 & Hp3 & Hsat3).
    refine (conj Hs3 (conj Hz3 (conj Hp3 _))). auto.
Qed.

Lemma forward_err fuel : forall M i n err,
  forward M i fuel n = Err err -> err = DegenerateConfiguration.
Proof.
  induction fuel as [|fuel IH]; intros M i n err Hf; simpl in Hf; [discriminate|].
  destruct (below_eps _); [congruence|]. eapply IH; eauto.
Qed.

(** ** Back substitution *)

Lemma back_subst_length U n m : forall sol,
  length (back_subst U n m sol) = length sol.
Proof.
  induction m as [|m IH]; intros sol; simpl; auto.
  rewrite IH. apply set_nth_length.
Qed.

(** Rows still to be processed never write above them. *)
Lemma back_subst_keep U n m : forall sol j, (m <= j)%nat ->
  nth j (back_subst U n m sol) 0 = nth j sol 0.
Proof.
  induction m as [|m IH]; intros sol j Hj; simpl; auto.
  rewrite IH by lia. apply nth_set_nth_ne. lia.
Qed.

Lemma back_subst_split U n mhi : forall mlo sol, (mlo <= mhi)%nat ->
  exists st, length st = length sol /\
             back_subst U n mhi sol = back_subst U n mlo st.
Proof.
  induction mhi as [|m IH]; intros mlo sol Hle.
  - assert (mlo = O) as -> by lia. exists sol. auto.
  - destruct (Nat.eq_dec mlo (S m)) as [->|Hne]; [exists sol; auto|].
    simpl. destruct (IH mlo (set_nth sol m
       (back_inner (nth m U []) sol (nth n (nth m U []) 0) (S m) (n - S m) /
        nth m (nth m U []) 0)) ltac:(lia)) as (st & Hst & Heq).
    exists st. rewrite set_nth_length in Hst. auto.
Qed.

Lemma back_inner_sum r sol fuel : forall s j,
  back_inner r sol s j fuel =
  s - sumQ (fun t => nth (j + t) r 0 * nth (j + t) sol 0) fuel.
Proof.
  induction fuel as [|fuel IH]; intros s j; simpl.
  - ring.
  - rewrite IH. rewrite Nat.add_0_r.
    rewrite (sumQ_ext fuel (fun t => nth (S j + t) r 0 * nth (S j + t) sol 0)
               (fun t => nth (j + S t) r 0 * nth (j + S t) sol 0)).
    + ring.
    + intros t _. rewrite Nat.add_succ_r. reflexivity.
Qed.

Lemma back_subst_sat n U : shape n U -> lower_zero n n U -> pivots_nonzero n U ->
  sat n (back_subst U n n (repeat 0 n)) U.
Proof.
  intros [Hlen Hrows] Hz Hp k Hk.
  destruct (back_subst_split U n n (S k) (repeat 0 n) ltac:(lia))
    as (st & Hst & Heq).
  rewrite repeat_length in Hst.
  set (X := back_subst U n n (repeat 0 n)).
  set (rk := nth k U []).
  set (v := back_inner rk st (nth n rk 0) (S k) (n - S k) / nth k rk 0).
  assert (HX : X = back_subst U n k (set_nth st k v)) by (unfold X; rewrite Heq; reflexivity).
  assert (Hxk : nth k X 0 = v).
  { rewrite HX, back_subst_keep by lia. apply nth_set_nth_eq. lia. }
  assert (Hxj : forall j, (k < j)%nat -> nth j X 0 = nth j st 0).
  { intros j Hj. rewrite HX, back_subst_keep by lia. apply nth_set_nth_ne. lia. }
  assert (Hpk : nth k rk 0 <> 0) by (apply (Hp k Hk)).
  unfold row_sat, dot.
  replace n with (k + S (n - S k))%nat at 1 by lia.
  rewrite sumQ_split.
  rewrite (sumQ_zero k) by (intros t Ht; change (nth t rk 0) with (get U k t);
                             rewrite (Hz k t) by lia; ring).
  simpl. rewrite Nat.add_0_r, Hxk.
  rewrite (sumQ_ext (n - S k) (fun t => nth (k + S t) rk 0 * nth (k + S t) X 0)
             (fun t => nth (S k + t) rk 0 * nth (S k + t) st 0)).
  - unfold v. rewrite back_inner_sum. field. exact Hpk.
  - intros t _. rewrite Nat.add_succ_r, Hxj by lia. reflexivity.
Qed.

(** ** solveLinearSystem solves square systems *)

Lemma augment_length A : forall B, length (augment A B) = length A.
Proof. induction A as [|r A IH]; intros B; simpl; auto. Qed.

Lemma nth_augment A : forall B k, (k < length A)%nat ->
  nth k (augment A B) [] = nth k A [] ++ [nth k B 0].
Proof.
  induction A as [|r A IH]; intros B k Hk; simpl in *; [lia|].
  destruct k as [|k].
  - destruct B; reflexivity.
  - rewrite IH by lia. destruct B; simpl; auto. destruct k; reflexivity.
Qed.

Lemma nth_app_last (r : list Qc) (v : Qc) j :
  nth j (r ++ [v]) 0 = if Nat.eq_dec j (length r) then v else nth j r 0.
Proof.
  destruct (Nat.eq_dec j (length r)) as [->|Hne].
  - rewrite app_nth2 by lia. rewrite Nat.sub_diag. reflexivity.
  - destruct (le_lt_dec (length r) j).
    + rewrite app_nth2 by lia. rewrite (nth_overflow r) by lia.
      destruct (j - length r)%nat as [|[|]] eqn:E; simpl; auto; lia.
    + apply app_nth1. auto.
Qed.

Lemma augment_shape n A B : square n A -> shape n (augment A B).
Proof.
  intros [Hlen Hrows]. split; [rewrite augment_length; auto|].
  intros k Hk. rewrite nth_augment by lia. rewrite length_app, Hrows by auto.
  simpl. lia.
Qed.

Lemma augment_sat n A B xs : square n A ->
  sat n xs (augment A B) -> solves A xs B.
Proof.
  intros [Hlen Hrows] Hs k Hk. rewrite Hlen in *.
  specialize (Hs k Hk). unfold row_sat, dot in Hs.
  rewrite nth_augment in Hs by lia.
  rewrite nth_app_last in Hs. rewrite Hrows in Hs by auto.
  destruct (Nat.eq_dec n n); [|congruence].
  rewrite <- Hs. apply sumQ_ext. intros t Ht.
  rewrite nth_app_last. rewrite Hrows by auto.
  destruct (Nat.eq_dec t n); [lia|reflexivity].
Qed.

Theorem solveLinearSystem_solves A B xs :
  square (length A) A -> length B = length A ->
  solveLinearSystem A B = Ok xs ->
  length xs = length A /\ solves A xs B.
Proof.
  intros Hsq _ Hsol. unfold solveLinearSystem in Hsol.
  destruct (forward (augment A B) 0 (length A) (length A)) as [U|err] eqn:Hf;
    simpl in Hsol; [|discriminate].
  injection Hsol as <-.
  destruct (forward_correct (length A) (length A) (augment A B) 0 U
              ltac:(lia) (augment_shape _ A B Hsq)
              ltac:(intros k j _ Hj; lia) ltac:(intros k Hk; lia) Hf)
    as (Hs & Hz & Hp & Hsat).
  split.
  - rewrite back_subst_length, repeat_length. reflexivity.
  - apply (augment_sat (length A)); auto.
    apply Hsat. apply back_subst_sat; auto.
Qed.

Lemma solveLinearSystem_err A B err :
  solveLinearSystem A B = Err err -> err = DegenerateConfiguration.
Proof.
  unfold solveLinearSystem.
  destruct (forward _ _ _ _) eqn:Hf; simpl; [discriminate|].
  intros [= <-]. eapply forward_err; eauto.
Qed.

(** ** Which pivots are met does not depend on the right-hand side *)

Lemma set_nth_row_agree n r r' j v v' :
  row_agree n r r' -> ((j < n)%nat -> v = v') ->
  row_agree n (set_nth r j v) (set_nth r' j v').
Proof.
  intros [Hl Hr] Hv. split; [rewrite !set_nth_length; auto|].
  intros t Ht. destruct (Nat.eq_dec t j) as [->|Hne].
  - destruct (le_lt_dec (length r) j).
    + rewrite !set_nth_out by lia. auto.
    + rewrite !nth_set_nth_eq by lia. auto.
  - rewrite !nth_set_nth_ne by congruence. auto.
Qed.

Lemma set_nth_agree n M M' k r r' :
  agree n M M' -> row_agree n r r' ->
  agree n (set_nth M k r) (set_nth M' k r').
Proof.
  intros [Hl Hr] Hrr. split; [rewrite !set_nth_length; auto|].
  intros t. destruct (Nat.eq_dec t k) as [->|Hne].
  - destruct (le_lt_dec (length M) k).
    + rewrite !set_nth_out by lia. auto.
    + rewrite !nth_set_nth_eq by lia. auto.
  - rewrite !nth_set_nth_ne by congruence. auto.
Qed.

Lemma get_agree n M M' k j : agree n M M' -> (j < n)%nat -> get M k j = get M' k j.
Proof. intros [_ Hr] Hj. apply (Hr k). auto. Qed.

Lemma pivot_loop_agree n M M' i fuel : agree n M M' -> (i < n)%nat ->
  forall k m, pivot_loop M i k fuel m = pivot_loop M' i k fuel m.
Proof.
  intros Hag Hi. induction fuel as [|fuel IH]; intros k m; simpl; auto.
  rewrite !(get_agree n M M') by auto. apply IH.
Qed.

Lemma swap_rows_agree n M M' i r : agree n M M' ->
  agree n (swap_rows M i r) (swap_rows M' i r).
Proof.
  intros Hag. unfold swap_rows.
  apply set_nth_agree; [apply set_nth_agree; auto|]; apply Hag.
Qed.

Lemma elim_cols_agree n ri ri' fct fuel : row_agree n ri ri' ->
  forall rk rk' j, row_agree n rk rk' ->
  row_agree n (elim_cols ri rk fct j fuel) (elim_cols ri' rk' fct j fuel).
Proof.
  intros Hi. induction fuel as [|fuel IH]; intros rk rk' j Hk; simpl; auto.
  apply IH. apply set_nth_row_agree; auto.
  intros Hj. destruct Hi as [_ Hi]. destruct Hk as [_ Hk].
  rewrite Hi, Hk by auto. reflexivity.
Qed.

Lemma elim_rows_agree n i fuel : (i < n)%nat -> forall M M' k, agree n M M' ->
  agree n (elim_rows M i k fuel n) (elim_rows M' i k fuel n).
Proof.
  intros Hi. induction fuel as [|fuel IH]; intros M M' k Hag; simpl; auto.
  apply IH. apply set_nth_agree; auto.
  unfold elim_row_of.
  assert (Hf : nth i (nth k M []) 0 / nth i (nth i M []) 0 =
               nth i (nth k M' []) 0 / nth i (nth i M' []) 0).
  { change (get M k i / get M i i = get M' k i / get M' i i).
    rewrite !(get_agree n M M') by auto. reflexivity. }
  rewrite Hf. apply elim_cols_agree; apply Hag.
Qed.

Lemma forward_agree n fuel : forall M M' i U, (i + fuel = n)%nat ->
  agree n M M' -> forward M i fuel n = Ok U ->
  exists U', forward M' i fuel n = Ok U'.
Proof.
  induction fuel as [|fuel IH]; intros M M' i U Hi Hag Hf; simpl in *.
  - eauto.
  - cbv zeta in *.
    assert (Hpr : pivot_row M' i n = pivot_row M i n).
    { unfold pivot_row. symmetry. apply (pivot_loop_agree n); auto; lia. }
    rewrite Hpr.
    pose proof (swap_rows_agree n M M' i (pivot_row M i n) Hag) as Hag1.
    rewrite <- (get_agree n _ _ i i Hag1) by lia.
    destruct (below_eps _); [discriminate|].
    eapply IH; [| |exact Hf]; [lia|].
    apply elim_rows_agree; auto; lia.
Qed.

Lemma augment_agree A B B' : square (length A) A ->
  agree (length A) (augment A B) (augment A B').
Proof.
  intros [_ Hrows]. split; [rewrite !augment_length; auto|].
  intros k. destruct (le_lt_dec (length A) k).
  - rewrite !nth_overflow by (rewrite augment_length; lia).
    split; auto.
  - rewrite !nth_augment by auto. split.
    + rewrite !length_app. reflexivity.
    + intros j Hj. rewrite !app_nth1 by (rewrite Hrows; auto). reflexivity.
Qed.

(** Success of the solver is decided by the coefficient matrix alone. *)
Theorem solveLinearSystem_success_indep A B B' xs :
  square (length A) A -> solveLinearSystem A B = Ok xs ->
  exists xs', solveLinearSystem A B' = Ok xs'.
Proof.
  intros Hsq Hsol. unfold solveLinearSystem in *.
  destruct (forward (augment A B) 0 (length A) (length A)) as [U|err] eqn:Hf;
    simpl in Hsol; [|discriminate].
  destruct (forward_agree (length A) (length A) _ (augment A B') 0 U ltac:(lia)
              (augment_agree A B B' Hsq) Hf) as (U' & HU').
  rewrite HU'. simpl. eauto.
Qed.

(** ** The 6 × 6 system of calculateTransformMatrix *)

Lemma system6_square p1 p2 p3 : square 6 (system6 p1 p2 p3).
Proof.
  split; [reflexivity|].
  intros k Hk. do 6 (destruct k as [|k]; [reflexivity|]). lia.
Qed.

Lemma system6_rows p1 p2 p3 xs B : solves (system6 p1 p2 p3) xs B ->
  let u := nth 0 xs 0 in let v := nth 1 xs 0 in let w := nth 2 xs 0 in
  let u' := nth 3 xs 0 in let v' := nth 4 xs 0 in let w' := nth 5 xs 0 in
  u * pdf_x p1 + v * pdf_y p1 + w = nth 0 B 0 /\
  u' * pdf_x p1 + v' * pdf_y p1 + w' = nth 1 B 0 /\
  u * pdf_x p2 + v * pdf_y p2 + w = nth 2 B 0 /\
  u' * pdf_x p2 + v' * pdf_y p2 + w' = nth 3 B 0 /\
  u * pdf_x p3 + v * pdf_y p3 + w = nth 4 B 0 /\
  u' * pdf_x p3 + v' * pdf_y p3 + w' = nth 5 B 0.
Proof.
  intros H. cbv zeta.
  pose proof (H 0%nat ltac:(simpl; lia)) as H0.
  pose proof (H 1%nat ltac:(simpl; lia)) as H1.
  pose proof (H 2%nat ltac:(simpl; lia)) as H2.
  pose proof (H 3%nat ltac:(simpl; lia)) as H3.
  pose proof (H 4%nat ltac:(simpl; lia)) as H4.
  pose proof (H 5%nat ltac:(simpl; lia)) as H5.
  simpl in H0, H1, H2, H3, H4, H5.
  unfold get, system6 in H0, H1, H2, H3, H4, H5. simpl in H0, H1, H2, H3, H4, H5.
  repeat split; [rewrite <- H0|rewrite <- H1|rewrite <- H2|rewrite <- H3
                |rewrite <- H4|rewrite <- H5]; ring.
Qed.

Lemma system6_any p1 p2 p3 B xs B' :
  solveLinearSystem (system6 p1 p2 p3) B = Ok xs -> length B' = 6%nat ->
  exists xs', solves (system6 p1 p2 p3) xs' B'.
Proof.
  intros Hsol HB'.
  destruct (solveLinearSystem_success_indep _ B B' xs
              (system6_square p1 p2 p3) Hsol) as (xs' & Hxs').
  exists xs'. apply (solveLinearSystem_solves _ B' xs'); auto.
  apply system6_square.
Qed.

Lemma Qc_sub_eq0 (u v : Qc) : u - v = 0 -> u = v.
Proof.
  intros H. transitivity ((u - v) + v); [ring|]. rewrite H. ring.
Qed.

Lemma Qc_one_neq_zero : (1 : Qc) <> 0.
Proof. exact Q_apart_0_1. Qed.

Lemma calculateTransformMatrix_eq p1 p2 p3 m1 m2 m3 :
  calculateTransformMatrix [p1; p2; p3] [m1; m2; m3] =
  (solution <- solveLinearSystem (system6 p1 p2 p3)
                 [lng m1; lat m1; lng m2; lat m2; lng m3; lat m3] ;;
   Ok {| a := nth 0 solution 0; b := nth 1 solution 0;
         e := nth 2 solution 0; c := nth 3 solution 0;
         d := nth 4 solution 0; f := nth 5 solution 0 |}).
Proof. reflexivity. Qed.

Lemma calculateTransformMatrix_lengths pdfPoints mapPoints :
  (length pdfPoints <> 3 \/ length mapPoints <> 3)%nat ->
  calculateTransformMatrix pdfPoints mapPoints = Err InsufficientReferencePoints.
Proof.
  intros H.
  destruct pdfPoints as [|p1 [|p2 [|p3 [|p4 ps]]]];
  destruct mapPoints as [|m1 [|m2 [|m3 [|m4 ms]]]]; simpl in H;
    try reflexivity; lia.
Qed.

(** C1 (amended): whenever [calculateTransformMatrix] returns a matrix, the
    forward transform maps each of the three source points exactly onto its
    target point. *)
Theorem calculateTransformMatrix_fits pdfPoints mapPoints T :
  calculateTransformMatrix pdfPoints mapPoints = Ok T ->
  length pdfPoints = 3%nat /\ length mapPoints = 3%nat /\
  forall i, (i < 3)%nat ->
    transformPDFToGeo (nth i pdfPoints default_pdf) T = nth i mapPoints default_map.
Proof.
  intros HT.
  destruct (Nat.eq_dec (length pdfPoints) 3) as [Hp|Hp];
    [|rewrite calculateTransformMatrix_lengths in HT by auto; discriminate].
  destruct (Nat.eq_dec (length mapPoints) 3) as [Hm|Hm];
    [|rewrite calculateTransformMatrix_lengths in HT by auto; discriminate].
  split; [exact Hp|split; [exact Hm|]].
  destruct pdfPoints as [|p1 [|p2 [|p3 [|p4 ps]]]]; simpl in Hp; try lia.
  destruct mapPoints as [|m1 [|m2 [|m3 [|m4 ms]]]]; simpl in Hm; try lia.
  rewrite calculateTransformMatrix_eq in HT.
  destruct (solveLinearSystem _ _) as [xs|err] eqn:Hsol; simpl in HT;
    [|discriminate].
  injection HT as <-.
  destruct (solveLinearSystem_solves _ _ xs (system6_square p1 p2 p3)
              (eq_refl : length [lng m1; lat m1; lng m2; lat m2; lng m3; lat m3] = 6%nat)
              Hsol) as [_ Hxs].
  destruct (system6_rows _ _ _ _ _ Hxs) as (E1 & E2 & E3 & E4 & E5 & E6).
  simpl in E1, E2, E3, E4, E5, E6.
  intros i Hi. unfold transformPDFToGeo; simpl.
  destruct i as [|[|[|i]]]; simpl; try lia;
    [destruct m1 | destruct m2 | destruct m3]; simpl in *; f_equal;
    [rewrite <- E2 | rewrite <- E1 | rewrite <- E4 | rewrite <- E3
    | rewrite <- E6 | rewrite <- E5]; ring.
Qed.

Lemma calculateTransformMatrix_fits_witness :
  exists T, calculateTransformMatrix fixture_pdf fixture_map = Ok T /\
  transformPDFToGeo (nth 0 fixture_pdf default_pdf) T = nth 0 fixture_map default_map.
Proof.
  destruct (calculateTransformMatrix fixture_pdf fixture_map) as [T|err] eqn:E.
  - exists T. split; [reflexivity|].
    apply (calculateTransformMatrix_fits fixture_pdf fixture_map T E). lia.
  - exfalso. vm_compute in E. discriminate.
Defined.

(** C1 (counterexample): the source points (0,0), (1,0), (0,1e-11) are not
    collinear, yet [calculateTransformMatrix] rejects them: the second pivot
    is 1e-11, below the 1e-10 threshold. *)
Lemma calculateTransformMatrix_noncollinear_rejected :
  ~ collinear (mkPDFPoint 0 0 1) (mkPDFPoint 1 0 1) (mkPDFPoint 0 (qc 1e-11) 1) /\
  calculateTransformMatrix
    [mkPDFPoint 0 0 1; mkPDFPoint 1 0 1; mkPDFPoint 0 (qc 1e-11) 1] fixture_map
  = Err DegenerateConfiguration.
Proof.
  split.
  - unfold collinear. intros H. apply (f_equal this) in H.
    vm_compute in H. discriminate.
  - vm_compute. reflexivity.
Qed.

(** C2: three collinear source points paired with any three target points
    make [calculateTransformMatrix] throw the degenerate-configuration error
    (the only error [solveLinearSystem] raises, at a pivot below 1e-10). *)
Theorem calculateTransformMatrix_collinear p1 p2 p3 mapPoints :
  length mapPoints = 3%nat -> collinear p1 p2 p3 ->
  calculateTransformMatrix [p1; p2; p3] mapPoints = Err DegenerateConfiguration.
Proof.
  intros Hm Hcol.
  destruct mapPoints as [|m1 [|m2 [|m3 [|m4 ms]]]]; simpl in Hm; try lia.
  rewrite calculateTransformMatrix_eq.
  destruct (solveLinearSystem _ _) as [xs|err] eqn:Hsol; simpl.
  2: apply solveLinearSystem_err in Hsol; subst; reflexivity.
  exfalso. unfold collinear in Hcol.
  (* Targets 0, 0, 1 for the longitudes: p1 and p2 coincide. *)
  destruct (system6_any _ _ _ _ _ [0; 0; 0; 0; 1; 0] Hsol eq_refl) as (xs1 & H1).
  destruct (system6_rows _ _ _ _ _ H1) as (E1 & _ & E3 & _ & E5 & _).
  simpl in E1, E3, E5.
  set (u := nth 0 xs1 0) in *. set (v := nth 1 xs1 0) in *.
  set (w := nth 2 xs1 0) in *.
  assert (Hu : u * (pdf_x p2 - pdf_x p1) + v * (pdf_y p2 - pdf_y p1) = 0).
  { transitivity ((u * pdf_x p2 + v * pdf_y p2 + w) - (u * pdf_x p1 + v * pdf_y p1 + w));
      [ring|]. rewrite E1, E3. ring. }
  assert (Hw : u * (pdf_x p3 - pdf_x p1) + v * (pdf_y p3 - pdf_y p1) = 1).
  { transitivity ((u * pdf_x p3 + v * pdf_y p3 + w) - (u * pdf_x p1 + v * pdf_y p1 + w));
      [ring|]. rewrite E1, E5. ring. }
  apply Qc_sub_eq0 in Hcol.
  assert (Hx : pdf_x p2 - pdf_x p1 = 0).
  { transitivity ((pdf_x p2 - pdf_x p1) *
                  (u * (pdf_x p3 - pdf_x p1) + v * (pdf_y p3 - pdf_y p1)));
      [rewrite Hw; ring|].
    transitivity (u * (pdf_x p2 - pdf_x p1) * (pdf_x p3 - pdf_x p1) +
                  v * ((pdf_x p2 - pdf_x p1) * (pdf_y p3 - pdf_y p1))); [ring|].
    rewrite Hcol.
    transitivity ((pdf_x p3 - pdf_x p1) *
                  (u * (pdf_x p2 - pdf_x p1) + v * (pdf_y p2 - pdf_y p1))); [ring|].
    rewrite Hu. ring. }
  assert (Hy : pdf_y p2 - pdf_y p1 = 0).
  { transitivity ((pdf_y p2 - pdf_y p1) *
                  (u * (pdf_x p3 - pdf_x p1) + v * (pdf_y p3 - pdf_y p1)));
      [rewrite Hw; ring|].
    transitivity (u * ((pdf_x p3 - pdf_x p1) * (pdf_y p2 - pdf_y p1)) +
                  v * (pdf_y p2 - pdf_y p1) * (pdf_y p3 - pdf_y p1)); [ring|].
    rewrite <- Hcol.
    transitivity ((pdf_y p3 - pdf_y p1) *
                  (u * (pdf_x p2 - pdf_x p1) + v * (pdf_y p2 - pdf_y p1))); [ring|].
    rewrite Hu. ring. }
  apply Qc_sub_eq0 in Hx. apply Qc_sub_eq0 in Hy.
  (* Targets 0, 1 for the first two longitudes contradict p1 = p2. *)
  destruct (system6_any _ _ _ _ _ [0; 0; 1; 0; 0; 0] Hsol eq_refl) as (xs2 & H2).
  destruct (system6_rows _ _ _ _ _ H2) as (F1 & _ & F3 & _ & _ & _).
  simpl in F1, F3. rewrite Hx, Hy in F3. rewrite F1 in F3.
  apply Qc_one_neq_zero. symmetry. exact F3.
Qed.

Lemma calculateTransformMatrix_collinear_witness :
  calculateTransformMatrix
    [mkPDFPoint 0 0 1; mkPDFPoint (qc 10) 0 1; mkPDFPoint (qc 20) 0 1] fixture_map
  = Err DegenerateConfiguration.
Proof.
  apply calculateTransformMatrix_collinear.
  - reflexivity.
  - unfold collinear. vm_compute. reflexivity.
Defined.

(** ** Round trip *)

Lemma below_eps_ge u : eps <= Qcabs u -> below_eps u = false.
Proof.
  unfold below_eps. destruct (Qclt_le_dec (Qcabs u) eps) as [Hlt|_]; auto.
  intros Hle. exfalso. exact (Qcle_not_lt _ _ Hle Hlt).
Qed.

(** C3: for a matrix whose determinant has absolute value at least 1e-10,
    [transformGeoToPDF] throws for no point and undoes [transformPDFToGeo]
    exactly. *)
Theorem transform_roundtrip T (p : XY) :
  eps <= Qcabs (a T * d T - b T * c T) ->
  transformGeoToPDF (transformPDFToGeo p T) T = Ok p /\
  forall q, exists r, transformGeoToPDF q T = Ok r.
Proof.
  intros Hdet. pose proof (below_eps_ge _ Hdet) as Hb.
  pose proof (below_eps_false _ Hb) as Hnz.
  unfold transformGeoToPDF. cbv zeta. rewrite Hb. split.
  - destruct p as [px py]. unfold transformPDFToGeo; simpl.
    f_equal. f_equal; field; exact Hnz.
  - intros q. eexists. reflexivity.
Qed.

Lemma transform_roundtrip_witness :
  transformGeoToPDF (transformPDFToGeo (mkXY (qc 300) (qc 250)) sample_matrix)
    sample_matrix = Ok (mkXY (qc 300) (qc 250)).
Proof.
  apply transform_roundtrip. qc_decide.
Defined.

(** ** The solver (C4) *)

Lemma pivot_loop_max aug i fuel : forall k m,
  (i <= m < k)%nat ->
  (forall k', (i <= k' < k)%nat -> Qcabs (get aug k' i) <= Qcabs (get aug m i)) ->
  forall k', (i <= k' < k + fuel)%nat ->
  Qcabs (get aug k' i) <= Qcabs (get aug (pivot_loop aug i k fuel m) i).
Proof.
  induction fuel as [|fuel IH]; intros k m Hm Hmax k' Hk'; simpl.
  - apply Hmax. lia.
  - destruct (Qclt_le_dec (Qcabs (get aug m i)) (Qcabs (get aug k i))) as [Hlt|Hle].
    + apply IH; [lia| |lia]. intros k'' Hk''.
      destruct (Nat.eq_dec k'' k) as [->|Hne]; [apply Qcle_refl|].
      apply Qcle_trans with (Qcabs (get aug m i)); [apply Hmax; lia|].
      apply Qclt_le_weak. exact Hlt.
    + apply IH; [lia| |lia]. intros k'' Hk''.
      destruct (Nat.eq_dec k'' k) as [->|Hne]; [exact Hle|]. apply Hmax. lia.
Qed.

Lemma get_swap_rows_pivot M i r : (i < length M)%nat -> (r < length M)%nat ->
  get (swap_rows M i r) i i = get M r i.
Proof.
  intros Hi Hr. unfold get, swap_rows.
  destruct (Nat.eq_dec r i) as [->|Hne].
  - rewrite nth_set_nth_eq by (rewrite set_nth_length; auto). reflexivity.
  - rewrite nth_set_nth_ne by auto. rewrite nth_set_nth_eq by auto. reflexivity.
Qed.

Lemma forward_state_at aug n fuel : forall i,
  forward (state_at aug i n) i fuel n = Err DegenerateConfiguration <->
  exists j, (i <= j < i + fuel)%nat /\ below_eps (pivot_at aug j n) = true.
Proof.
  induction fuel as [|fuel IH]; intros i; simpl.
  - split; [discriminate|]. intros (j & Hj & _). lia.
  - unfold pivot_at at 1. cbv zeta.
    destruct (below_eps _) eqn:Hb.
    + split; [intros _|reflexivity]. exists i. split; [lia|exact Hb].
    + change (elim_rows (swap_rows (state_at aug i n) i (pivot_row (state_at aug i n) i n))
                i (S i) (n - S i) n) with (state_at aug (S i) n).
      rewrite IH. split.
      * intros (j & Hj & Hbj). exists j. split; [lia|exact Hbj].
      * intros (j & Hj & Hbj). exists j. split; [|exact Hbj].
        destruct (Nat.eq_dec j i) as [->|Hne]; [|lia].
        exfalso. unfold pivot_at in Hbj. cbv zeta in Hbj. congruence.
Qed.

Lemma solveLinearSystem_singular A B :
  solveLinearSystem A B = Err DegenerateConfiguration <->
  exists i, (i < length A)%nat /\
    below_eps (pivot_at (augment A B) i (length A)) = true.
Proof.
  transitivity (forward (state_at (augment A B) 0 (length A)) 0 (length A) (length A)
                = Err DegenerateConfiguration).
  - unfold solveLinearSystem. cbn [state_at].
    destruct (forward _ _ _ _) as [U|err] eqn:Hf; simpl.
    + split; discriminate.
    + pose proof (forward_err _ _ _ _ _ Hf) as ->. split; reflexivity.
  - rewrite forward_state_at.
    split; intros (j & Hj & Hb); exists j; split; auto; lia.
Qed.

(** C4: [solveLinearSystem] picks as pivot a row of largest absolute value
    in the pivot column among the remaining rows and swaps it into place, so
    that the pivot read after the swap is that row's entry; it fails, and
    only with the degenerate-configuration error, exactly when at some
    column the pivot read after the swap has absolute value below 1e-10;
    and whatever vector it returns for an [n × n] system solves
    [A · x = B]. *)
Theorem solveLinearSystem_correct :
  (forall M i n, (i < n)%nat ->
     (i <= pivot_row M i n < n)%nat /\
     (forall k, (i <= k < n)%nat ->
        Qcabs (get M k i) <= Qcabs (get M (pivot_row M i n) i)) /\
     ((n <= length M)%nat ->
        get (swap_rows M i (pivot_row M i n)) i i = get M (pivot_row M i n) i)) /\
  (forall A B err, solveLinearSystem A B = Err err ->
     err = DegenerateConfiguration) /\
  (forall A B, solveLinearSystem A B = Err DegenerateConfiguration <->
     exists i, (i < length A)%nat /\
       Qcabs (pivot_at (augment A B) i (length A)) < qc 1e-10) /\
  (forall A B xs, square (length A) A -> length B = length A ->
     solveLinearSystem A B = Ok xs ->
     length xs = length A /\ solves A xs B).
Proof.
  split; [|split; [|split]].
  - intros M i n Hi. pose proof (pivot_row_range M i n Hi) as Hr.
    split; [exact Hr|split].
    + intros k Hk. unfold pivot_row. apply pivot_loop_max; [lia| |lia].
      intros k' Hk'. assert (k' = i) as -> by lia. apply Qcle_refl.
    + intros Hn. apply get_swap_rows_pivot; lia.
  - exact solveLinearSystem_err.
  - intros A B. rewrite solveLinearSystem_singular.
    split; intros (i & Hi & Hb); exists i; split; auto; unfold below_eps in *.
    + destruct (Qclt_le_dec _ eps) as [Hlt|_]; [exact Hlt|discriminate].
    + destruct (Qclt_le_dec _ eps) as [_|Hle]; [reflexivity|].
      exfalso. exact (Qcle_not_lt _ _ Hle Hb).
  - exact solveLinearSystem_solves.
Qed.

Lemma solveLinearSystem_correct_witness :
  (exists xs, solveLinearSystem (system6 (mkPDFPoint (qc 100) (qc 100) 1)
      (mkPDFPoint (qc 500) (qc 100) 1) (mkPDFPoint (qc 100) (qc 400) 1))
      [qc 136.5085; qc 34.7304; qc 136.6085; qc 34.7304; qc 136.5085; qc 34.6304]
    = Ok xs /\
  solves (system6 (mkPDFPoint (qc 100) (qc 100) 1)
      (mkPDFPoint (qc 500) (qc 100) 1) (mkPDFPoint (qc 100) (qc 400) 1)) xs
      [qc 136.5085; qc 34.7304; qc 136.6085; qc 34.7304; qc 136.5085; qc 34.6304]) /\
  (exists i, (i < 6)%nat /\
     Qcabs (pivot_at (augment (system6 (mkPDFPoint 0 0 1) (mkPDFPoint (qc 10) 0 1)
                                       (mkPDFPoint (qc 20) 0 1))
                              [1; 1; 1; 1; 1; 1]) i 6) < qc 1e-10).
Proof.
  destruct solveLinearSystem_correct as (_ & _ & Hsing & H).
  split.
  - destruct (solveLinearSystem (system6 (mkPDFPoint (qc 100) (qc 100) 1)
      (mkPDFPoint (qc 500) (qc 100) 1) (mkPDFPoint (qc 100) (qc 400) 1))
      [qc 136.5085; qc 34.7304; qc 136.6085; qc 34.7304; qc 136.5085; qc 34.6304])
      as [xs|err] eqn:E.
    + exists xs. split; [reflexivity|].
      apply (H _ _ xs); [apply system6_square | reflexivity | exact E].
    + exfalso. vm_compute in E. discriminate.
  - match goal with
    | |- exists i, _ /\ Qcabs (pivot_at (augment ?A ?B) _ _) < _ =>
        apply (proj1 (Hsing A B))
    end.
    vm_compute. reflexivity.
Defined.

(** ** Bounds (C5) *)

Lemma fold_max_spec t : forall h,
  (forall v, In v (h :: t) -> v <= fold_left Qcmax t h) /\
  In (fold_left Qcmax t h) (h :: t).
Proof.
  induction t as [|z t IH]; intros h; simpl.
  - split; [intros v [<-|[]]; apply Qcle_refl|auto].
  - destruct (IH (Qcmax h z)) as [Hle Hin]. split.
    + intros v Hv. unfold Qcmax in *.
      destruct (Qclt_le_dec h z) as [Hhz|Hzh].
      * destruct Hv as [<-|[<-|Hv]].
        -- apply Qcle_trans with z; [apply Qclt_le_weak; auto|apply Hle; left; auto].
        -- apply Hle. left. auto.
        -- apply Hle. right. auto.
      * destruct Hv as [<-|[<-|Hv]].
        -- apply Hle. left. auto.
        -- apply Qcle_trans with h; [auto|apply Hle; left; auto].
        -- apply Hle. right. auto.
    + unfold Qcmax in *. destruct (Qclt_le_dec h z); simpl in Hin;
        destruct Hin as [<-|Hin]; auto.
Qed.

Lemma fold_min_spec t : forall h,
  (forall v, In v (h :: t) -> fold_left Qcmin t h <= v) /\
  In (fold_left Qcmin t h) (h :: t).
Proof.
  induction t as [|z t IH]; intros h; simpl.
  - split; [intros v [<-|[]]; apply Qcle_refl|auto].
  - destruct (IH (Qcmin h z)) as [Hle Hin]. split.
    + intros v Hv. unfold Qcmin in *.
      destruct (Qclt_le_dec z h) as [Hzh|Hhz].
      * destruct Hv as [<-|[<-|Hv]].
        -- apply Qcle_trans with z; [apply Hle; left; auto|apply Qclt_le_weak; auto].
        -- apply Hle. left. auto.
        -- apply Hle. right. auto.
      * destruct Hv as [<-|[<-|Hv]].
        -- apply Hle. left. auto.
        -- apply Qcle_trans with h; [apply Hle; left; auto|auto].
        -- apply Hle. right. auto.
    + unfold Qcmin in *. destruct (Qclt_le_dec z h); simpl in Hin;
        destruct Hin as [<-|Hin]; auto.
Qed.

Lemma Math_max_spec xs : xs <> [] ->
  (forall v, In v xs -> v <= Math_max xs) /\ In (Math_max xs) xs.
Proof. destruct xs as [|h t]; [congruence|]. intros _. apply fold_max_spec. Qed.

Lemma Math_min_spec xs : xs <> [] ->
  (forall v, In v xs -> Math_min xs <= v) /\ In (Math_min xs) xs.
Proof. destruct xs as [|h t]; [congruence|]. intros _. apply fold_min_spec. Qed.

(** C5: the returned north/south are the largest/smallest latitude and
    east/west the largest/smallest longitude of the four forward-transformed
    corners; hence every corner lies in the bounds, north ≥ south and
    east ≥ west. *)
Theorem transformPDFBoundsToGeoBounds_spec pdfBounds T :
  let G := transformPDFBoundsToGeoBounds pdfBounds T in
  let pts := map (fun corner => transformPDFToGeo corner T) (pdf_corners pdfBounds) in
  (forall q, In q pts -> south G <= lat q <= north G /\ west G <= lng q <= east G) /\
  (exists q, In q pts /\ lat q = north G) /\
  (exists q, In q pts /\ lat q = south G) /\
  (exists q, In q pts /\ lng q = east G) /\
  (exists q, In q pts /\ lng q = west G) /\
  south G <= north G /\ west G <= east G.
Proof.
  cbv zeta.
  assert (Hq0 : In (transformPDFToGeo (hd (mkXY 0 0) (pdf_corners pdfBounds)) T)
            (map (fun corner => transformPDFToGeo corner T) (pdf_corners pdfBounds)))
    by (left; reflexivity).
  unfold transformPDFBoundsToGeoBounds. cbv zeta. cbn [north south east west].
  revert Hq0.
  generalize (map (fun corner => transformPDFToGeo corner T) (pdf_corners pdfBounds))
    as pts.
  generalize (transformPDFToGeo (hd (mkXY 0 0) (pdf_corners pdfBounds)) T) as q0.
  intros q0 pts Hq0.
  assert (Hne : forall (g : MapPoint -> Qc), map g pts <> []).
  { intros g Hg. apply map_eq_nil in Hg. subst. contradiction. }
  destruct (Math_max_spec (map lat pts) (Hne lat)) as [Hn1 Hn2].
  destruct (Math_min_spec (map lat pts) (Hne lat)) as [Hs1 Hs2].
  destruct (Math_max_spec (map lng pts) (Hne lng)) as [He1 He2].
  destruct (Math_min_spec (map lng pts) (Hne lng)) as [Hw1 Hw2].
  assert (Hbox : forall q, In q pts ->
    Math_min (map lat pts) <= lat q <= Math_max (map lat pts) /\
    Math_min (map lng pts) <= lng q <= Math_max (map lng pts)).
  { intros q Hq. split; split;
      [apply Hs1|apply Hn1|apply Hw1|apply He1]; apply in_map; exact Hq. }
  split; [exact Hbox|].
  apply in_map_iff in Hn2, Hs2, He2, Hw2.
  destruct Hn2 as (qn & Hqn & Hinn). destruct Hs2 as (qs & Hqs & Hins).
  destruct He2 as (qe & Hqe & Hine). destruct Hw2 as (qw & Hqw & Hinw).
  split; [exists qn; split; assumption|].
  split; [exists qs; split; assumption|].
  split; [exists qe; split; assumption|].
  split; [exists qw; split; assumption|].
  destruct (Hbox _ Hq0) as [[H1 H2] [H3 H4]].
  split; [exact (Qcle_trans _ _ _ H1 H2)|exact (Qcle_trans _ _ _ H3 H4)].
Qed.

(** ** Recentering (C6) *)

Lemma clamp_lat_id v : qc (-90) <= v -> v <= qc 90 -> google_maps.clamp_lat v = v.
Proof.
  intros H1 H2. unfold google_maps.clamp_lat.
  destruct (Qclt_le_dec v (qc (-90))) as [Hlt|_];
    [exfalso; exact (Qcle_not_lt _ _ H1 Hlt)|].
  destruct (Qclt_le_dec (qc 90) v) as [Hlt|_];
    [exfalso; exact (Qcle_not_lt _ _ H2 Hlt)|reflexivity].
Qed.

Lemma wrap_lng_id v : qc (-180) <= v -> v <= qc 180 -> google_maps.wrap_lng v = v.
Proof.
  intros H1 H2. unfold google_maps.wrap_lng.
  destruct (Qclt_le_dec v (qc (-180))) as [Hlt|_];
    [exfalso; exact (Qcle_not_lt _ _ H1 Hlt)|].
  destruct (Qclt_le_dec (qc 180) v) as [Hlt|_];
    [exfalso; exact (Qcle_not_lt _ _ H2 Hlt)|reflexivity].
Qed.

Lemma qc_2 : qc 2 = 1 + 1.
Proof. apply Qc_is_canon. reflexivity. Qed.

Lemma two_neq_zero : (1 + 1 : Qc) <> 0.
Proof. intros H. apply (f_equal this) in H. vm_compute in H. discriminate. Qed.

Lemma new_LatLngBounds_id sw ne :
  google_maps.lng sw <> qc (-180) -> google_maps.lng ne <> qc (-180) ->
  google_maps.new_LatLngBounds sw ne = google_maps.mkLatLngBounds sw ne.
Proof.
  intros H1 H2. destruct sw as [la lo], ne as [la' hi].
  cbn [google_maps.lng] in H1, H2.
  unfold google_maps.new_LatLngBounds, google_maps.qc_eqb.
  cbn [google_maps.lng google_maps.lat].
  destruct (Qc_eq_dec lo (qc (-180))) as [E|_]; [contradiction|]. cbn [andb].
  destruct (Qc_eq_dec hi (qc (-180))) as [E|_]; [contradiction|]. reflexivity.
Qed.

Lemma above_minus_180 v : qc (-180) < v -> v <> qc (-180).
Proof. intros H E. rewrite E in H. exact (Qclt_not_le _ _ H (Qcle_refl _)). Qed.




(** ** The three-point precondition (C7) *)

(** C7: [calculateTransformMatrix] throws the insufficient-reference-points
    error exactly when one of its two arrays does not have 3 elements; in
    that case the result is that error whatever the points hold, and the
    solver is never reached. *)
Theorem calculateTransformMatrix_insufficient pdfPoints mapPoints :
  (calculateTransformMatrix pdfPoints mapPoints = Err InsufficientReferencePoints <->
   (length pdfPoints <> 3 \/ length mapPoints <> 3)%nat) /\
  ((length pdfPoints <> 3 \/ length mapPoints <> 3)%nat ->
   forall pdfPoints' mapPoints',
     length pdfPoints' = length pdfPoints -> length mapPoints' = length mapPoints ->
     calculateTransformMatrix pdfPoints' mapPoints' =
     calculateTransformMatrix pdfPoints mapPoints).
Proof.
  split.
  - split; [|apply calculateTransformMatrix_lengths].
    intros H.
    destruct (Nat.eq_dec (length pdfPoints) 3) as [Hp|Hp]; [|auto].
    destruct (Nat.eq_dec (length mapPoints) 3) as [Hm|Hm]; [|auto].
    exfalso.
    destruct pdfPoints as [|p1 [|p2 [|p3 [|p4 ps]]]]; simpl in Hp; try lia.
    destruct mapPoints as [|m1 [|m2 [|m3 [|m4 ms]]]]; simpl in Hm; try lia.
    rewrite calculateTransformMatrix_eq in H.
    destruct (solveLinearSystem _ _) as [xs|err] eqn:Hsol; simpl in H;
      [discriminate|].
    apply solveLinearSystem_err in Hsol. congruence.
  - intros Hlen p' m' Hp Hm.
    rewrite !calculateTransformMatrix_lengths by (rewrite ?Hp, ?Hm; auto).
    reflexivity.
Qed.

Lemma calculateTransformMatrix_insufficient_witness :
  calculateTransformMatrix (firstn 2 fixture_pdf) (firstn 2 fixture_map)
  = Err InsufficientReferencePoints.
Proof.
  apply calculateTransformMatrix_insufficient. simpl. lia.
Defined.

(** ** The accuracy validator (C8, C10) and the shared distance (C9) *)

Section AccuracyProofs.
Context {M : JSMath}.

Lemma accuracy_loop_sum pdfPoints mapPoints matrix fuel : forall i total,
  accuracy_loop pdfPoints mapPoints matrix i fuel total =
  total + sumQ (fun t => pair_error pdfPoints mapPoints matrix (i + t)) fuel.
Proof.
  induction fuel as [|fuel IH]; intros i total; simpl.
  - ring.
  - rewrite IH. rewrite Nat.add_0_r.
    rewrite (sumQ_ext fuel (fun t => pair_error pdfPoints mapPoints matrix (S i + t))
               (fun t => pair_error pdfPoints mapPoints matrix (i + S t))).
    + unfold pair_error. ring.
    + intros t _. rewrite Nat.add_succ_r. reflexivity.
Qed.

Lemma of_nat_neq_zero n : of_nat (S n) <> 0.
Proof.
  unfold of_nat. intros H. apply Q2Qc_eq_iff in H.
  unfold Qeq in H. simpl in H. lia.
Qed.

(** C8: the validator throws the mismatched-point-counts error exactly when
    the lengths differ; otherwise it divides the sum of the haversine
    distances (R = 6371000 m) between each transformed source point and its
    target by the number of pairs, which is their arithmetic mean when there
    is at least one pair. *)
Theorem validateTransformAccuracy_spec pdfPoints mapPoints matrix :
  (validateTransformAccuracy pdfPoints mapPoints matrix = Err MismatchedPointCounts <->
   length pdfPoints <> length mapPoints) /\
  (length pdfPoints = length mapPoints ->
   validateTransformAccuracy pdfPoints mapPoints matrix =
   Ok (js_div (sumQ (pair_error pdfPoints mapPoints matrix) (length pdfPoints))
              (of_nat (length pdfPoints)))) /\
  (length pdfPoints = length mapPoints -> pdfPoints <> [] ->
   validateTransformAccuracy pdfPoints mapPoints matrix =
   Ok (Finite (sumQ (pair_error pdfPoints mapPoints matrix) (length pdfPoints) /
               of_nat (length pdfPoints)))).
Proof.
  assert (Hok : length pdfPoints = length mapPoints ->
     validateTransformAccuracy pdfPoints mapPoints matrix =
     Ok (js_div (sumQ (pair_error pdfPoints mapPoints matrix) (length pdfPoints))
                (of_nat (length pdfPoints)))).
  { intros Heq. unfold validateTransformAccuracy.
    rewrite Heq, Nat.eqb_refl. simpl. rewrite <- Heq.
    rewrite accuracy_loop_sum, Qcplus_0_l. reflexivity. }
  split; [|split; [exact Hok|]].
  - split.
    + intros H Heq. rewrite Hok in H by exact Heq. discriminate.
    + intros Hne. unfold validateTransformAccuracy.
      apply Nat.eqb_neq in Hne. rewrite Hne. reflexivity.
  - intros Heq Hne. rewrite Hok by exact Heq.
    destruct pdfPoints as [|p ps]; [congruence|].
    unfold js_div. destruct (Qc_eq_dec _ 0) as [Hz|_].
    + exfalso. exact (of_nat_neq_zero _ Hz).
    + reflexivity.
Qed.

(** C10: the validator accepts any two arrays of equal length, 3 or not,
    and on two empty arrays returns [0 / 0], i.e. [NaN], neither 0 nor an
    error. *)
Theorem validateTransformAccuracy_any_length :
  (forall pdfPoints mapPoints matrix, length pdfPoints = length mapPoints ->
     exists v, validateTransformAccuracy pdfPoints mapPoints matrix = Ok v) /\
  (forall matrix, validateTransformAccuracy [] [] matrix = Ok NaN /\
     validateTransformAccuracy [] [] matrix <> Ok (Finite 0)).
Proof.
  split.
  - intros pdfPoints mapPoints matrix Heq. unfold validateTransformAccuracy.
    rewrite Heq, Nat.eqb_refl. simpl. eauto.
  - intros matrix. unfold validateTransformAccuracy. simpl.
    unfold js_div. destruct (Qc_eq_dec (of_nat 0) 0) as [_|Hne];
      [|exfalso; apply Hne; apply Qc_is_canon; reflexivity].
    split; [reflexivity|discriminate].
Qed.

(** C9: the distance of the transform module and the distance of the
    geolocation helpers evaluate the same expression on every pair of
    points; given [sin 0 = 0], [sqrt 0 = 0], [sqrt 1 = 1] and
    [atan2(0, 1) = 0] both are 0 on identical points. *)
Theorem calculateDistance_shared :
  (forall p1 p2, calculateDistance p1 p2 =
     Geolocation.calculateDistance (lat p1) (lng p1) (lat p2) (lng p2)) /\
  (Math_sin 0 = 0 -> Math_sqrt 0 = 0 -> Math_sqrt 1 = 1 -> Math_atan2 0 1 = 0 ->
   forall p, calculateDistance p p = 0 /\
             Geolocation.calculateDistance (lat p) (lng p) (lat p) (lng p) = 0).
Proof.
  split; [intros; reflexivity|].
  intros Hsin Hs0 Hs1 Hat p.
  assert (Hz : forall u, (u - u) * Math_PI / qc 180 / qc 2 = 0)
    by (intros u; unfold Qcminus, Qcdiv; rewrite Qcplus_opp_r, !Qcmult_0_l;
        reflexivity).
  assert (Ha : forall g : Qc, 0 * 0 + g * 0 * 0 = 0) by (intros g; ring).
  assert (Hone : (1 : Qc) - 0 = 1) by ring.
  assert (Hgeo : Geolocation.calculateDistance (lat p) (lng p) (lat p) (lng p) = 0).
  { unfold Geolocation.calculateDistance. cbv zeta.
    rewrite !Hz, Hsin, Ha, Hone, Hs0, Hs1, Hat. ring. }
  split; [|exact Hgeo].
  change (Geolocation.calculateDistance (lat p) (lng p) (lat p) (lng p) = 0) in Hgeo.
  exact Hgeo.
Qed.

End AccuracyProofs.

Lemma validateTransformAccuracy_spec_witness :
  @validateTransformAccuracy sample_math fixture_pdf fixture_map sample_matrix =
  Ok (js_div (@sumQ (@pair_error sample_math fixture_pdf fixture_map sample_matrix) 3)
             (of_nat 3)).
Proof.
  destruct (@validateTransformAccuracy_spec sample_math fixture_pdf fixture_map
              sample_matrix) as [_ [H _]].
  apply H. reflexivity.
Defined.

Lemma validateTransformAccuracy_any_length_witness :
  exists v, @validateTransformAccuracy sample_math
    (fixture_pdf ++ fixture_pdf) (fixture_map ++ fixture_map) sample_matrix = Ok v.
Proof.
  destruct (@validateTransformAccuracy_any_length sample_math) as [H _].
  apply H. reflexivity.
Defined.

Lemma calculateDistance_shared_witness :
  @calculateDistance sample_math (mkMapPoint (qc 34.7) (qc 136.5))
    (mkMapPoint (qc 34.7) (qc 136.5)) = 0.
Proof.
  destruct (@calculateDistance_shared sample_math) as [_ H].
  apply H; reflexivity.
Defined.

(** * Further properties of the transform module *)

(** ** The inverse transform *)

(** [transformGeoToPDF] is also a right inverse of [transformPDFToGeo]:
    whenever it returns a point, the forward transform maps that point back
    onto the geographic point it started from. *)
Theorem transformGeoToPDF_right_inverse T q p :
  transformGeoToPDF q T = Ok p -> transformPDFToGeo p T = q.
Proof.
  unfold transformGeoToPDF. cbv zeta.
  destruct (below_eps _) eqn:Hb; [discriminate|].
  pose proof (below_eps_false _ Hb) as Hnz.
  intros H. injection H as <-. destruct q as [ql qg].
  unfold transformPDFToGeo. cbn [lat lng x y].
  f_equal; field; exact Hnz.
Qed.

Lemma transformGeoToPDF_right_inverse_witness :
  exists p, transformGeoToPDF (mkMapPoint (qc 34.7) (qc 136.5)) sample_matrix = Ok p /\
            transformPDFToGeo p sample_matrix = mkMapPoint (qc 34.7) (qc 136.5).
Proof.
  destruct (transformGeoToPDF (mkMapPoint (qc 34.7) (qc 136.5)) sample_matrix)
    as [p|err] eqn:E.
  - exists p. split; [reflexivity|].
    exact (transformGeoToPDF_right_inverse _ _ _ E).
  - exfalso. vm_compute in E. discriminate.
Defined.

(** ** Affine images of a rectangle *)

Lemma mul_le_pos (c u v : Qc) : 0 <= c -> u <= v -> c * u <= c * v.
Proof.
  intros Hc Huv. rewrite (Qcmult_comm c u), (Qcmult_comm c v).
  apply Qcmult_le_compat_r; assumption.
Qed.

Lemma mul_le_neg (c u v : Qc) : c <= 0 -> u <= v -> c * v <= c * u.
Proof.
  intros Hc Huv.
  assert (Hc' : 0 <= - c).
  { replace 0 with (- (0 : Qc)) by ring. apply Qcopp_le_compat. exact Hc. }
  pose proof (Qcmult_le_compat_r _ _ _ Huv Hc') as H.
  apply Qcopp_le_compat in H.
  replace (c * v) with (- (v * - c)) by ring.
  replace (c * u) with (- (u * - c)) by ring. exact H.
Qed.

(** A linear function on an interval lies between its values at the ends. *)
Lemma mul_between (c lo hi u : Qc) : lo <= u <= hi ->
  (c * u <= c * lo \/ c * u <= c * hi) /\ (c * lo <= c * u \/ c * hi <= c * u).
Proof.
  intros [Hlo Hhi]. destruct (Qclt_le_dec c 0) as [Hc|Hc].
  - apply Qclt_le_weak in Hc.
    split; [left; exact (mul_le_neg _ _ _ Hc Hlo)|right; exact (mul_le_neg _ _ _ Hc Hhi)].
  - split; [right; exact (mul_le_pos _ _ _ Hc Hhi)|left; exact (mul_le_pos _ _ _ Hc Hlo)].
Qed.

(** Of the two ends of an interval, one gives the larger and the other the
    smaller value of a linear function. *)
Lemma mul_extremes (c lo hi : Qc) :
  exists hiX loX, (hiX = lo \/ hiX = hi) /\ (loX = lo \/ loX = hi) /\
    hiX + loX = lo + hi /\
    c * lo <= c * hiX /\ c * hi <= c * hiX /\ c * loX <= c * lo /\ c * loX <= c * hi.
Proof.
  destruct (Qclt_le_dec (c * lo) (c * hi)) as [H|H].
  - apply Qclt_le_weak in H. exists hi, lo.
    refine (conj (or_intror eq_refl) (conj (or_introl eq_refl) (conj _ _))).
    + apply Qcplus_comm.
    + repeat split; first [exact H | apply Qcle_refl].
  - exists lo, hi.
    refine (conj (or_introl eq_refl) (conj (or_intror eq_refl) (conj eq_refl _))).
    repeat split; first [exact H | apply Qcle_refl].
Qed.

Lemma affine_le (c d f x0 y0 x1 y1 : Qc) :
  c * x0 <= c * x1 -> d * y0 <= d * y1 -> c * x0 + d * y0 + f <= c * x1 + d * y1 + f.
Proof.
  intros Hx Hy. apply Qcplus_le_compat; [apply Qcplus_le_compat; assumption|apply Qcle_refl].
Qed.

Ltac bound_by t H :=
  apply Qcle_trans with t;
  [ first [apply H; simpl; tauto | apply affine_le; assumption]
  | first [apply H; simpl; tauto | apply affine_le; assumption] ].

(** An affine function on a rectangle lies between the smallest and the
    largest of its values at the four corners. *)
Lemma affine_between (c d f x0 x1 y0 y1 u v : Qc) :
  x0 <= u <= x1 -> y0 <= v <= y1 ->
  Math_min [c * x0 + d * y0 + f; c * x1 + d * y0 + f;
            c * x1 + d * y1 + f; c * x0 + d * y1 + f] <= c * u + d * v + f /\
  c * u + d * v + f <=
  Math_max [c * x0 + d * y0 + f; c * x1 + d * y0 + f;
            c * x1 + d * y1 + f; c * x0 + d * y1 + f].
Proof.
  intros Hu Hv.
  destruct (Math_max_spec [c * x0 + d * y0 + f; c * x1 + d * y0 + f;
            c * x1 + d * y1 + f; c * x0 + d * y1 + f]) as [Hmax _]; [discriminate|].
  destruct (Math_min_spec [c * x0 + d * y0 + f; c * x1 + d * y0 + f;
            c * x1 + d * y1 + f; c * x0 + d * y1 + f]) as [Hmin _]; [discriminate|].
  destruct (mul_between c _ _ _ Hu) as [Cu1 Cu2].
  destruct (mul_between d _ _ _ Hv) as [Dv1 Dv2].
  split.
  - destruct Cu2 as [Cu|Cu]; destruct Dv2 as [Dv|Dv];
      first [ bound_by (c * x0 + d * y0 + f) Hmin | bound_by (c * x1 + d * y0 + f) Hmin
            | bound_by (c * x1 + d * y1 + f) Hmin | bound_by (c * x0 + d * y1 + f) Hmin ].
  - destruct Cu1 as [Cu|Cu]; destruct Dv1 as [Dv|Dv];
      first [ bound_by (c * x0 + d * y0 + f) Hmax | bound_by (c * x1 + d * y0 + f) Hmax
            | bound_by (c * x1 + d * y1 + f) Hmax | bound_by (c * x0 + d * y1 + f) Hmax ].
Qed.

(** The largest and the smallest corner value of an affine function add up
    to twice its value at the centre. *)
Lemma affine_extremes (c d f x0 x1 y0 y1 : Qc) :
  Math_max [c * x0 + d * y0 + f; c * x1 + d * y0 + f;
            c * x1 + d * y1 + f; c * x0 + d * y1 + f] +
  Math_min [c * x0 + d * y0 + f; c * x1 + d * y0 + f;
            c * x1 + d * y1 + f; c * x0 + d * y1 + f] =
  c * (x0 + x1) + d * (y0 + y1) + (f + f).
Proof.
  destruct (Math_max_spec [c * x0 + d * y0 + f; c * x1 + d * y0 + f;
            c * x1 + d * y1 + f; c * x0 + d * y1 + f]) as [Hmax Inmax]; [discriminate|].
  destruct (Math_min_spec [c * x0 + d * y0 + f; c * x1 + d * y0 + f;
            c * x1 + d * y1 + f; c * x0 + d * y1 + f]) as [Hmin Inmin]; [discriminate|].
  destruct (mul_extremes c x0 x1) as (hX & lX & HhX & HlX & HsX & Cx0 & Cx1 & Cx2 & Cx3).
  destruct (mul_extremes d y0 y1) as (hY & lY & HhY & HlY & HsY & Dy0 & Dy1 & Dy2 & Dy3).
  assert (Emax : Math_max [c * x0 + d * y0 + f; c * x1 + d * y0 + f;
            c * x1 + d * y1 + f; c * x0 + d * y1 + f] = c * hX + d * hY + f).
  { apply Qcle_antisym.
    - cbn [In] in Inmax.
      destruct Inmax as [<-|[<-|[<-|[<-|[]]]]]; apply affine_le; assumption.
    - apply Hmax. simpl.
      destruct HhX as [->| ->]; destruct HhY as [->| ->]; tauto. }
  assert (Emin : Math_min [c * x0 + d * y0 + f; c * x1 + d * y0 + f;
            c * x1 + d * y1 + f; c * x0 + d * y1 + f] = c * lX + d * lY + f).
  { apply Qcle_antisym.
    - apply Hmin. simpl.
      destruct HlX as [->| ->]; destruct HlY as [->| ->]; tauto.
    - cbn [In] in Inmin.
      destruct Inmin as [<-|[<-|[<-|[<-|[]]]]]; apply affine_le; assumption. }
  rewrite Emax, Emin, <- HsX, <- HsY. ring.
Qed.

(** Every point of the rectangle, not only its corners, is mapped by the
    forward transform into the bounds [transformPDFBoundsToGeoBounds]
    returns. *)
Theorem transformPDFBoundsToGeoBounds_contains pdfBounds T (p : XY) :
  minX pdfBounds <= x p <= maxX pdfBounds ->
  minY pdfBounds <= y p <= maxY pdfBounds ->
  let G := transformPDFBoundsToGeoBounds pdfBounds T in
  let q := transformPDFToGeo p T in
  south G <= lat q <= north G /\ west G <= lng q <= east G.
Proof.
  intros Hx Hy G q. subst G q.
  unfold transformPDFBoundsToGeoBounds, pdf_corners, transformPDFToGeo.
  cbn [map lat lng x y north south east west].
  destruct (affine_between (c T) (d T) (f T) _ _ _ _ _ _ Hx Hy) as [H1 H2].
  destruct (affine_between (a T) (b T) (e T) _ _ _ _ _ _ Hx Hy) as [H3 H4].
  exact (conj (conj H1 H2) (conj H3 H4)).
Qed.

Lemma transformPDFBoundsToGeoBounds_contains_witness :
  let G := transformPDFBoundsToGeoBounds (mkPDFBounds 0 0 (qc 600) (qc 500)) sample_matrix in
  let q := transformPDFToGeo (mkXY (qc 300) (qc 125)) sample_matrix in
  south G <= lat q <= north G /\ west G <= lng q <= east G.
Proof.
  apply transformPDFBoundsToGeoBounds_contains; qc_decide.
Defined.

Lemma geo_bounds_center pdfBounds T :
  let G := transformPDFBoundsToGeoBounds pdfBounds T in
  transformPDFToGeo {| x := (minX pdfBounds + maxX pdfBounds) / qc 2;
                       y := (minY pdfBounds + maxY pdfBounds) / qc 2 |} T =
  {| lat := (north G + south G) / qc 2; lng := (east G + west G) / qc 2 |}.
Proof.
  intros G. subst G.
  unfold transformPDFBoundsToGeoBounds, pdf_corners, transformPDFToGeo.
  cbn [map lat lng x y north south east west].
  rewrite !affine_extremes. rewrite qc_2.
  f_equal; field; exact two_neq_zero.
Qed.

(** The midpoint of the returned bounds is the forward image of the centre
    of the rectangle. *)
Theorem transformPDFBoundsToGeoBounds_center pdfBounds T :
  let G := transformPDFBoundsToGeoBounds pdfBounds T in
  transformPDFToGeo {| x := (minX pdfBounds + maxX pdfBounds) / qc 2;
                       y := (minY pdfBounds + maxY pdfBounds) / qc 2 |} T =
  {| lat := (north G + south G) / qc 2; lng := (east G + west G) / qc 2 |}.
Proof. exact (geo_bounds_center pdfBounds T). Qed.

(** ** Success of the solver and of the estimator *)

(** Whether [solveLinearSystem] throws depends only on the coefficient
    matrix: if it solves a square system for one right-hand side, it returns
    a vector for every right-hand side. *)
Theorem solveLinearSystem_success_rhs A B B' xs :
  square (length A) A -> solveLinearSystem A B = Ok xs ->
  exists xs', solveLinearSystem A B' = Ok xs'.
Proof. exact (solveLinearSystem_success_indep A B B' xs). Qed.

Lemma solveLinearSystem_success_rhs_witness :
  exists xs', solveLinearSystem [[qc 2; 1]; [1; qc 3]] [qc 7; qc 9] = Ok xs'.
Proof.
  destruct (solveLinearSystem [[qc 2; 1]; [1; qc 3]] [1; 0]) as [xs|err] eqn:E.
  - refine (solveLinearSystem_success_rhs _ [1; 0] _ xs _ E).
    split; [reflexivity|]. intros k Hk. do 2 (destruct k as [|k]; [reflexivity|]). simpl in Hk; lia.
  - exfalso. vm_compute in E. discriminate.
Defined.

(** Whether [calculateTransformMatrix] succeeds depends only on the source
    points: if it returns a matrix for some target points, it returns one
    for every three target points. *)
Theorem calculateTransformMatrix_success_targets pdfPoints mapPoints mapPoints' T :
  calculateTransformMatrix pdfPoints mapPoints = Ok T -> length mapPoints' = 3%nat ->
  exists T', calculateTransformMatrix pdfPoints mapPoints' = Ok T'.
Proof.
  intros HT Hm'.
  destruct (Nat.eq_dec (length pdfPoints) 3) as [Hp|Hp];
    [|rewrite calculateTransformMatrix_lengths in HT by auto; discriminate].
  destruct (Nat.eq_dec (length mapPoints) 3) as [Hm|Hm];
    [|rewrite calculateTransformMatrix_lengths in HT by auto; discriminate].
  destruct pdfPoints as [|p1 [|p2 [|p3 [|p4 ps]]]]; simpl in Hp; try lia.
  destruct mapPoints as [|m1 [|m2 [|m3 [|m4 ms]]]]; simpl in Hm; try lia.
  destruct mapPoints' as [|n1 [|n2 [|n3 [|n4 ns]]]]; simpl in Hm'; try lia.
  rewrite calculateTransformMatrix_eq in HT |- *.
  destruct (solveLinearSystem _ _) as [xs|err] eqn:Hsol in HT; simpl in HT;
    [|discriminate].
  destruct (solveLinearSystem_success_indep _ _
              [lng n1; lat n1; lng n2; lat n2; lng n3; lat n3] xs
              (system6_square p1 p2 p3) Hsol) as [xs' Hxs'].
  rewrite Hxs'. simpl. eexists. reflexivity.
Qed.

Lemma calculateTransformMatrix_success_targets_witness :
  exists T', calculateTransformMatrix fixture_pdf
    [mkMapPoint 0 0; mkMapPoint 1 0; mkMapPoint 0 1] = Ok T'.
Proof.
  destruct (calculateTransformMatrix fixture_pdf fixture_map) as [T|err] eqn:E.
  - exact (calculateTransformMatrix_success_targets _ _
             [mkMapPoint 0 0; mkMapPoint 1 0; mkMapPoint 0 1] T E eq_refl).
  - exfalso. vm_compute in E. discriminate.
Defined.

(** ** Accuracy on the fitting points *)

(** Whenever [calculateTransformMatrix] returns a matrix, it maps the
    three source points onto their targets. *)
Lemma calculateTransformMatrix_fit_points pdfPoints mapPoints T :
  calculateTransformMatrix pdfPoints mapPoints = Ok T ->
  length pdfPoints = 3%nat /\ length mapPoints = 3%nat /\
  forall i, (i < 3)%nat ->
    transformPDFToGeo (nth i pdfPoints default_pdf) T = nth i mapPoints default_map.
Proof.
  intros HT.
  destruct (Nat.eq_dec (length pdfPoints) 3) as [Hp|Hp];
    [|rewrite calculateTransformMatrix_lengths in HT by auto; discriminate].
  destruct (Nat.eq_dec (length mapPoints) 3) as [Hm|Hm];
    [|rewrite calculateTransformMatrix_lengths in HT by auto; discriminate].
  split; [exact Hp|split; [exact Hm|]].
  destruct pdfPoints as [|p1 [|p2 [|p3 [|p4 ps]]]]; simpl in Hp; try lia.
  destruct mapPoints as [|m1 [|m2 [|m3 [|m4 ms]]]]; simpl in Hm; try lia.
  rewrite calculateTransformMatrix_eq in HT.
  destruct (solveLinearSystem _ _) as [xs|err] eqn:Hsol; simpl in HT;
    [|discriminate].
  injection HT as <-.
  destruct (solveLinearSystem_solves _ _ xs (system6_square p1 p2 p3)
              (eq_refl : length [lng m1; lat m1; lng m2; lat m2; lng m3; lat m3] = 6%nat)
              Hsol) as [_ Hxs].
  destruct (system6_rows _ _ _ _ _ Hxs) as (E1 & E2 & E3 & E4 & E5 & E6).
  simpl in E1, E2, E3, E4, E5, E6.
  intros i Hi. unfold transformPDFToGeo; simpl.
  destruct i as [|[|[|i]]]; simpl; try lia;
    [destruct m1 | destruct m2 | destruct m3]; simpl in *; f_equal;
    [rewrite <- E2 | rewrite <- E1 | rewrite <- E4 | rewrite <- E3
    | rewrite <- E6 | rewrite <- E5]; ring.
Qed.

Section FittedAccuracy.
Context {M : JSMath}.

Lemma calculateDistance_self :
  Math_sin 0 = 0 -> Math_sqrt 0 = 0 -> Math_sqrt 1 = 1 -> Math_atan2 0 1 = 0 ->
  forall p, calculateDistance p p = 0.
Proof.
  intros Hsin Hs0 Hs1 Hat p.
  assert (Hz : forall u, (u - u) * Math_PI / qc 180 / qc 2 = 0)
    by (intros u; unfold Qcminus, Qcdiv; rewrite Qcplus_opp_r, !Qcmult_0_l;
        reflexivity).
  assert (Ha : forall g : Qc, 0 * 0 + g * 0 * 0 = 0) by (intros g; ring).
  assert (Hone : (1 : Qc) - 0 = 1) by ring.
  unfold calculateDistance. cbv zeta.
  rewrite !Hz, Hsin, Ha, Hone, Hs0, Hs1, Hat. ring.
Qed.

Lemma validateTransformAccuracy_sum pdfPoints mapPoints matrix :
  length pdfPoints = length mapPoints ->
  validateTransformAccuracy pdfPoints mapPoints matrix =
  Ok (js_div (sumQ (pair_error pdfPoints mapPoints matrix) (length pdfPoints))
             (of_nat (length pdfPoints))).
Proof.
  intros Heq. unfold validateTransformAccuracy.
  rewrite Heq, Nat.eqb_refl. simpl. rewrite <- Heq.
  rewrite accuracy_loop_sum, Qcplus_0_l. reflexivity.
Qed.

(** Validating a matrix on the very points it was estimated from gives a
    mean error of exactly 0 (given [sin 0 = 0], [sqrt 0 = 0], [sqrt 1 = 1]
    and [atan2(0, 1) = 0]). *)
Theorem validateTransformAccuracy_fitted pdfPoints mapPoints T :
  Math_sin 0 = 0 -> Math_sqrt 0 = 0 -> Math_sqrt 1 = 1 -> Math_atan2 0 1 = 0 ->
  calculateTransformMatrix pdfPoints mapPoints = Ok T ->
  validateTransformAccuracy pdfPoints mapPoints T = Ok (Finite 0).
Proof.
  intros Hsin Hs0 Hs1 Hat HT.
  destruct (calculateTransformMatrix_fit_points _ _ _ HT) as (Hp & Hm & Hfit).
  rewrite validateTransformAccuracy_sum by congruence.
  rewrite sumQ_zero.
  - rewrite Hp. unfold js_div.
    destruct (Qc_eq_dec (of_nat 3) 0) as [Hz|_].
    + exfalso. exact (of_nat_neq_zero 2 Hz).
    + f_equal. f_equal. unfold Qcdiv. apply Qcmult_0_l.
  - intros t Ht. rewrite Hp in Ht. unfold pair_error.
    rewrite (Hfit t Ht). apply calculateDistance_self; assumption.
Qed.

End FittedAccuracy.

Lemma validateTransformAccuracy_fitted_witness :
  exists T, calculateTransformMatrix fixture_pdf fixture_map = Ok T /\
    @validateTransformAccuracy sample_math fixture_pdf fixture_map T = Ok (Finite 0).
Proof.
  destruct (calculateTransformMatrix fixture_pdf fixture_map) as [T|err] eqn:E.
  - exists T. split; [reflexivity|].
    apply (@validateTransformAccuracy_fitted sample_math); first [reflexivity | exact E].
  - exfalso. vm_compute in E. discriminate.
Defined.

(** * Further properties of the map helpers and the overlay utilities *)

(** ** validateOverlayBounds *)

Lemma js_ge_true u v : v <= u -> js_ge u v = true.
Proof.
  intros H. unfold js_ge. destruct (Qclt_le_dec u v) as [Hlt|_]; [|reflexivity].
  exfalso. exact (Qcle_not_lt _ _ H Hlt).
Qed.

Lemma js_gt_iff u v : js_gt u v = true <-> v < u.
Proof.
  unfold js_gt. destruct (Qclt_le_dec v u) as [H|H]; split; auto; [discriminate|].
  intros Hlt. exfalso. exact (Qcle_not_lt _ _ H Hlt).
Qed.

Lemma clamp_lat_range v : qc (-90) <= google_maps.clamp_lat v <= qc 90.
Proof.
  unfold google_maps.clamp_lat.
  destruct (Qclt_le_dec v (qc (-90))) as [H1|H1]; [qc_decide|].
  destruct (Qclt_le_dec (qc 90) v) as [H2|H2]; [qc_decide|].
  split; assumption.
Qed.

Lemma wrap_lng_range v : qc (-180) <= google_maps.wrap_lng v <= qc 180.
Proof.
  assert (Hw : forall q : Q,
    qc (-180) <= Q2Qc (q - 360 * inject_Z (Qfloor ((q + 180) / 360))) <= qc 180).
  { intros q.
    pose proof (Qfloor_le ((q + 180) / 360)) as H1.
    pose proof (Qlt_floor ((q + 180) / 360)) as H2.
    rewrite inject_Z_plus in H2. change (inject_Z 1) with 1%Q in H2.
    assert (Ht : ((q + 180) / 360 * 360 == q + 180)%Q) by field.
    revert H1 H2 Ht.
    generalize ((q + 180) / 360)%Q as t. intros t H1 H2 Ht.
    revert H1 H2. generalize (inject_Z (Qfloor t)) as z. intros z H1 H2.
    unfold qc, Qcle. cbn [this Q2Qc].
    rewrite !Qred_correct. split; lra. }
  unfold google_maps.wrap_lng.
  destruct (Qclt_le_dec v (qc (-180))) as [H1|H1]; [apply Hw|].
  destruct (Qclt_le_dec (qc 180) v) as [H2|H2]; [apply Hw|].
  split; assumption.
Qed.

Lemma validateOverlayBounds_built swLat swLng neLat neLng :
  google_maps.wrap_lng swLng <> qc (-180) ->
  google_maps.wrap_lng neLng <> qc (-180) ->
  validateOverlayBounds
    (Some (google_maps.new_LatLngBounds (google_maps.new_LatLng swLat swLng)
                                        (google_maps.new_LatLng neLat neLng))) = true <->
  google_maps.clamp_lat swLat < google_maps.clamp_lat neLat /\
  google_maps.wrap_lng swLng < google_maps.wrap_lng neLng.
Proof.
  intros Hsw Hne.
  rewrite new_LatLngBounds_id by assumption.
  unfold validateOverlayBounds, google_maps.new_LatLng,
    google_maps.getNorthEast, google_maps.getSouthWest, js_le.
  cbv zeta. cbn [google_maps.lat google_maps.lng google_maps.sw google_maps.ne].
  destruct (clamp_lat_range swLat) as [A1 _]. destruct (clamp_lat_range neLat) as [_ A2].
  destruct (wrap_lng_range swLng) as [B1 _]. destruct (wrap_lng_range neLng) as [_ B2].
  rewrite (js_ge_true _ _ A1), (js_ge_true _ _ A2), (js_ge_true _ _ B1), (js_ge_true _ _ B2).
  cbn [andb]. rewrite Bool.andb_true_iff, !js_gt_iff. tauto.
Qed.

Lemma validateOverlayBounds_west_edge swLat swLng neLat neLng :
  google_maps.wrap_lng swLng = qc (-180) ->
  google_maps.wrap_lng neLng <> qc 180 ->
  validateOverlayBounds
    (Some (google_maps.new_LatLngBounds (google_maps.new_LatLng swLat swLng)
                                        (google_maps.new_LatLng neLat neLng))) = false.
Proof.
  intros Hsw Hne.
  unfold google_maps.new_LatLngBounds, google_maps.new_LatLng.
  cbn [google_maps.lat google_maps.lng].
  rewrite Hsw. unfold google_maps.qc_eqb.
  destruct (Qc_eq_dec (qc (-180)) (qc (-180))) as [_|C]; [|exfalso; exact (C eq_refl)].
  destruct (Qc_eq_dec (google_maps.wrap_lng neLng) (qc 180)) as [C|_];
    [exfalso; exact (Hne C)|].
  destruct (Qc_eq_dec (qc 180) (qc 180)) as [_|C]; [|exfalso; exact (C eq_refl)].
  cbn [andb negb].
  assert (Hhi : forall b : bool,
    js_gt (if b then qc 180 else google_maps.wrap_lng neLng) (qc 180) = false).
  { intros b. destruct (js_gt _ (qc 180)) eqn:E; [|reflexivity].
    apply js_gt_iff in E. exfalso. destruct b.
    - exact (Qclt_not_le _ _ E (Qcle_refl _)).
    - exact (Qclt_not_le _ _ E (proj2 (wrap_lng_range neLng))). }
  unfold validateOverlayBounds, google_maps.getNorthEast, google_maps.getSouthWest.
  cbv zeta. cbn [google_maps.lat google_maps.lng google_maps.sw google_maps.ne].
  rewrite Hhi. rewrite !Bool.andb_false_r. reflexivity.
Qed.

(** [validateOverlayBounds] of utils/mapHelpers.ts and of
    utils/groundOverlay.ts agree on every argument and reject a missing one.
    On bounds built from two [LatLng]s the range checks can never fail (the
    constructor already clamps the latitude and wraps the longitude): when
    neither corner's longitude is -180, such bounds are valid exactly when
    the north-east corner lies strictly north and strictly east of the
    south-west one; a south-west corner at longitude -180 (with the
    north-east one not at 180) is always rejected, since [LatLngBounds]
    moves that west edge to 180. *)
Theorem validateOverlayBounds_LatLng :
  validateOverlayBounds None = false /\
  (forall bounds, groundOverlay.validateOverlayBounds bounds = validateOverlayBounds bounds) /\
  (forall swLat swLng neLat neLng,
     google_maps.wrap_lng swLng <> qc (-180) ->
     google_maps.wrap_lng neLng <> qc (-180) ->
     validateOverlayBounds
       (Some (google_maps.new_LatLngBounds (google_maps.new_LatLng swLat swLng)
                                           (google_maps.new_LatLng neLat neLng))) = true <->
     google_maps.clamp_lat swLat < google_maps.clamp_lat neLat /\
     google_maps.wrap_lng swLng < google_maps.wrap_lng neLng) /\
  (forall swLat swLng neLat neLng,
     google_maps.wrap_lng swLng = qc (-180) ->
     google_maps.wrap_lng neLng <> qc 180 ->
     validateOverlayBounds
       (Some (google_maps.new_LatLngBounds (google_maps.new_LatLng swLat swLng)
                                           (google_maps.new_LatLng neLat neLng))) = false).
Proof.
  split; [reflexivity|]. split; [reflexivity|]. split.
  - exact validateOverlayBounds_built.
  - exact validateOverlayBounds_west_edge.
Qed.

Lemma validateOverlayBounds_LatLng_witness :
  validateOverlayBounds
    (Some (google_maps.new_LatLngBounds (google_maps.new_LatLng 0 0)
                                        (google_maps.new_LatLng 1 1))) = true /\
  validateOverlayBounds
    (Some (google_maps.new_LatLngBounds (google_maps.new_LatLng 0 (qc (-180)))
                                        (google_maps.new_LatLng 1 0))) = false.
Proof.
  destruct validateOverlayBounds_LatLng as (_ & _ & H3 & H4). split.
  - apply (proj2 (H3 0 0 1 1 ltac:(qc_decide) ltac:(qc_decide))). qc_decide.
  - apply H4; qc_decide.
Defined.

(** Recentering valid bounds with [updateOverlayPosition] gives valid
    bounds, as long as the recentered corners stay within latitudes [-90, 90]
    and longitudes (-180, 180]. *)
Theorem validateOverlayBounds_updateOverlayPosition B newCenter :
  validateOverlayBounds (Some B) = true ->
  qc (-90) <= lat newCenter - lat_span B / qc 2 <= qc 90 ->
  qc (-90) <= lat newCenter + lat_span B / qc 2 <= qc 90 ->
  qc (-180) < lng newCenter - lng_span B / qc 2 /\
    lng newCenter - lng_span B / qc 2 <= qc 180 ->
  qc (-180) < lng newCenter + lng_span B / qc 2 /\
    lng newCenter + lng_span B / qc 2 <= qc 180 ->
  validateOverlayBounds (Some (updateOverlayPosition B newCenter)) = true.
Proof.
  intros HB [H1 H1'] [H2 H2'] [H3 H3'] [H4 H4'].
  assert (Hspan : 0 < lat_span B /\ 0 < lng_span B).
  { unfold validateOverlayBounds in HB. cbv zeta in HB.
    rewrite !Bool.andb_true_iff, !js_gt_iff in HB.
    destruct HB as [_ [Hlat Hlng]].
    unfold lat_span, lng_span, Qcminus.
    split; apply (proj1 (Qclt_minus_iff _ _)); assumption. }
  destruct Hspan as [Hlat Hlng].
  unfold updateOverlayPosition. cbv zeta.
  unfold lat_span, lng_span in *.
  apply validateOverlayBounds_built;
    [rewrite wrap_lng_id by (first [assumption | apply Qclt_le_weak; assumption]);
     apply above_minus_180; assumption ..|].
  rewrite (clamp_lat_id (_ - _)), (clamp_lat_id (_ + _)) by assumption.
  rewrite (wrap_lng_id (_ - _)), (wrap_lng_id (_ + _))
    by (first [assumption | apply Qclt_le_weak; assumption]).
  split; apply Qclt_minus_iff.
  - match goal with |- 0 < ?u => replace u with
      (google_maps.lat (google_maps.getNorthEast B) -
       google_maps.lat (google_maps.getSouthWest B)) end;
      [exact Hlat|rewrite qc_2; field; exact two_neq_zero].
  - match goal with |- 0 < ?u => replace u with
      (google_maps.lng (google_maps.getNorthEast B) -
       google_maps.lng (google_maps.getSouthWest B)) end;
      [exact Hlng|rewrite qc_2; field; exact two_neq_zero].
Qed.

Lemma validateOverlayBounds_updateOverlayPosition_witness :
  validateOverlayBounds
    (Some (updateOverlayPosition sample_bounds (mkMapPoint (qc 34.7) (qc 136.5)))) = true.
Proof.
  apply validateOverlayBounds_updateOverlayPosition; qc_decide.
Defined.

(** ** The geolocation callbacks *)

(** [watchPosition] reports every answer of the service exactly as
    [getCurrentPosition] settles on that answer (the same location, or the
    same message), in order; the not-supported message is given exactly when
    [navigator.geolocation] is missing, and any error code other than
    permission denied (1), position unavailable (2) and timeout (3) gives the
    unknown-error message. *)
Theorem geolocation_callbacks_agree :
  (forall watchId answers,
     Geolocation.watchPosition (Some (watchId, answers)) =
     (Some watchId,
      map (fun answer =>
             match Geolocation.getCurrentPosition (Some answer) with
             | Geolocation.Resolved location => Geolocation.onSuccess location
             | Geolocation.Rejected message => Geolocation.onError message
             end) answers)) /\
  Geolocation.getCurrentPosition None = Geolocation.Rejected Geolocation.NOT_SUPPORTED /\
  Geolocation.watchPosition None =
    (None, Geolocation.onError Geolocation.NOT_SUPPORTED :: nil) /\
  (forall answer, Geolocation.getCurrentPosition (Some answer) <>
                  Geolocation.Rejected Geolocation.NOT_SUPPORTED) /\
  (forall code, code <> 1%Z -> code <> 2%Z -> code <> 3%Z ->
     Geolocation.getCurrentPosition (Some (dom.ErrorReported code)) =
     Geolocation.Rejected Geolocation.UNKNOWN).
Proof.
  split; [|split; [reflexivity|split; [reflexivity|split]]].
  - intros watchId answers. unfold Geolocation.watchPosition. f_equal.
    apply map_ext. intros [position|code]; reflexivity.
  - intros [position|code]; cbn; [discriminate|].
    destruct (Z.eqb code dom.PERMISSION_DENIED); [discriminate|].
    destruct (Z.eqb code dom.POSITION_UNAVAILABLE); [discriminate|].
    destruct (Z.eqb code dom.TIMEOUT); discriminate.
  - intros code H1 H2 H3. cbn.
    unfold dom.PERMISSION_DENIED, dom.POSITION_UNAVAILABLE, dom.TIMEOUT.
    rewrite (proj2 (Z.eqb_neq _ _) H1), (proj2 (Z.eqb_neq _ _) H2),
      (proj2 (Z.eqb_neq _ _) H3).
    reflexivity.
Qed.

Lemma geolocation_callbacks_agree_witness :
  Geolocation.getCurrentPosition (Some (dom.ErrorReported 7%Z)) =
  Geolocation.Rejected Geolocation.UNKNOWN.
Proof.
  destruct geolocation_callbacks_agree as (_ & _ & _ & _ & H).
  apply H; discriminate.
Defined.

(** ** The overlay utilities *)

Lemma calculateTransformMatrix_insufficient_lengths pdfPoints mapPoints :
  calculateTransformMatrix pdfPoints mapPoints = Err InsufficientReferencePoints ->
  (length pdfPoints <> 3 \/ length mapPoints <> 3)%nat.
Proof.
  intros H.
  destruct (Nat.eq_dec (length pdfPoints) 3) as [Hp|Hp]; [|auto].
  destruct (Nat.eq_dec (length mapPoints) 3) as [Hm|Hm]; [|auto].
  exfalso.
  destruct pdfPoints as [|p1 [|p2 [|p3 [|p4 ps]]]]; simpl in Hp; try lia.
  destruct mapPoints as [|m1 [|m2 [|m3 [|m4 ms]]]]; simpl in Hm; try lia.
  rewrite calculateTransformMatrix_eq in H.
  destruct (solveLinearSystem _ _) as [xs|err] eqn:Hsol; simpl in H;
    [discriminate|].
  apply solveLinearSystem_err in Hsol. congruence.
Qed.

Lemma length_check_false (pdfPoints : list PDFPoint) (mapPoints : list MapPoint) :
  negb (Nat.eqb (length pdfPoints) 3) || negb (Nat.eqb (length mapPoints) 3) = false <->
  length pdfPoints = 3%nat /\ length mapPoints = 3%nat.
Proof.
  rewrite Bool.orb_false_iff, !Bool.negb_false_iff, !Nat.eqb_eq. tauto.
Qed.

Lemma outcome_Done_inj {A} (a b : A) :
  groundOverlay.Done a = groundOverlay.Done b -> a = b.
Proof. intros H. injection H. auto. Qed.

Section OverlayProofs.
Variable generateHighQualityPDFImage : list Byte.byte -> option String.string.
Variable getPDFPageSize : list Byte.byte -> option groundOverlay.PageSize.

(** [createGroundOverlay] throws the wrapped insufficient-points error
    exactly when one of the point arrays does not have 3 elements.  Every
    error it throws wraps either the error [calculateTransformMatrix] gives
    on the same points, or, once the matrix is computed, the error of
    [getPDFPageSize] or else of [generateHighQualityPDFImage] on the file's
    bytes; when the matrix is computed and both PDF functions succeed, it
    succeeds.  Then it returns the matrix [calculateTransformMatrix]
    computes, keeps the reference points, the PDF bytes and the opacity in
    the configuration, and returns an overlay of the rendered page, with the
    configuration's bounds and the requested opacity, attached to the given
    map. *)
Theorem createGroundOverlay_spec map0 pdfFile0 pdfPoints mapPoints options env :
  let r := groundOverlay.createGroundOverlay generateHighQualityPDFImage getPDFPageSize
             map0 pdfFile0 pdfPoints mapPoints options env in
  let data := groundOverlay.file_data pdfFile0 in
  (r = groundOverlay.Thrown (groundOverlay.CreationFailed
         (groundOverlay.TransformFailed InsufficientReferencePoints)) <->
   (length pdfPoints <> 3 \/ length mapPoints <> 3)%nat) /\
  (forall err, r = groundOverlay.Thrown err ->
     (exists e, err = groundOverlay.CreationFailed (groundOverlay.TransformFailed e) /\
                calculateTransformMatrix pdfPoints mapPoints = Err e) \/
     (exists T, calculateTransformMatrix pdfPoints mapPoints = Ok T /\
        ((getPDFPageSize data = None /\
          err = groundOverlay.CreationFailed groundOverlay.PageSizeFailed) \/
         (exists pageSize, getPDFPageSize data = Some pageSize /\
          generateHighQualityPDFImage data = None /\
          err = groundOverlay.CreationFailed groundOverlay.ImageFailed)))) /\
  (forall T pageSize url,
     calculateTransformMatrix pdfPoints mapPoints = Ok T ->
     getPDFPageSize data = Some pageSize ->
     generateHighQualityPDFImage data = Some url ->
     exists v, r = groundOverlay.Done v) /\
  (forall v, r = groundOverlay.Done v ->
     calculateTransformMatrix pdfPoints mapPoints = Ok (groundOverlay.transformMatrix v) /\
     groundOverlay.referencePoints (groundOverlay.config v) =
       groundOverlay.mkReferencePoints pdfPoints mapPoints /\
     groundOverlay.file_data (groundOverlay.pdfFile (groundOverlay.config v)) = data /\
     groundOverlay.opacity (groundOverlay.config v) = groundOverlay.options_opacity options /\
     generateHighQualityPDFImage data = Some (google_maps.getUrl (groundOverlay.overlay v)) /\
     google_maps.getBounds (groundOverlay.overlay v) =
       groundOverlay.bounds (groundOverlay.position (groundOverlay.config v)) /\
     google_maps.getOpacity (groundOverlay.overlay v) = groundOverlay.options_opacity options /\
     google_maps.getMap (groundOverlay.overlay v) = map0).
Proof.
  intros r data. subst r data. unfold groundOverlay.createGroundOverlay.
  destruct (negb _ || negb _) eqn:Hl.
  - assert (Hlen : (length pdfPoints <> 3 \/ length mapPoints <> 3)%nat).
    { destruct (Nat.eq_dec (length pdfPoints) 3) as [Hp|Hp]; [|auto].
      destruct (Nat.eq_dec (length mapPoints) 3) as [Hm|Hm]; [|auto].
      exfalso. rewrite (proj2 (length_check_false _ _) (conj Hp Hm)) in Hl. discriminate. }
    pose proof (calculateTransformMatrix_lengths _ _ Hlen) as Hc.
    split; [tauto|split; [|split]].
    + intros err H. injection H as <-. left. exists InsufficientReferencePoints.
      split; [reflexivity|exact Hc].
    + intros T pageSize url HT. rewrite Hc in HT. discriminate.
    + intros v H. discriminate.
  - apply length_check_false in Hl. destruct Hl as [Hp Hm].
    destruct (calculateTransformMatrix pdfPoints mapPoints) as [T|cause] eqn:Hc.
    + destruct (getPDFPageSize (groundOverlay.file_data pdfFile0)) as [ps|] eqn:Hs.
      * destruct (generateHighQualityPDFImage (groundOverlay.file_data pdfFile0))
          as [url|] eqn:Hg.
        -- split; [split; [discriminate|lia]|].
           split; [intros err H; discriminate|split].
           ++ intros T' pageSize url' _ _ _. eexists. reflexivity.
           ++ intros v H. apply outcome_Done_inj in H. subst v.
              repeat split; assumption.
        -- split; [split; [discriminate|lia]|split; [|split]].
           ++ intros err H. injection H as <-. right. exists T.
              split; [reflexivity|]. right. exists ps. repeat split.
           ++ intros T' pageSize url' _ _ Hu. discriminate.
           ++ intros v H. discriminate.
      * split; [split; [discriminate|lia]|split; [|split]].
        -- intros err H. injection H as <-. right. exists T.
           split; [reflexivity|]. left. split; reflexivity.
        -- intros T' pageSize url' _ Hps _. discriminate.
        -- intros v H. discriminate.
    + split; [split|split; [|split]].
      * intros H. injection H as ->. exact (calculateTransformMatrix_insufficient_lengths _ _ Hc).
      * lia.
      * intros err H. injection H as <-. left. exists cause. split; reflexivity.
      * intros T' pageSize url HT. discriminate.
      * intros v H. discriminate.
Qed.

(** The centre saved in the configuration of a created overlay is the
    forward image of the centre of the PDF page. *)
Theorem createGroundOverlay_center map0 pdfFile0 pdfPoints mapPoints options env v
  pageSize :
  groundOverlay.createGroundOverlay generateHighQualityPDFImage getPDFPageSize
    map0 pdfFile0 pdfPoints mapPoints options env = groundOverlay.Done v ->
  getPDFPageSize (groundOverlay.file_data pdfFile0) = Some pageSize ->
  groundOverlay.center (groundOverlay.position (groundOverlay.config v)) =
  transformPDFToGeo {| x := groundOverlay.width pageSize / qc 2;
                       y := groundOverlay.height pageSize / qc 2 |}
                    (groundOverlay.transformMatrix v).
Proof.
  unfold groundOverlay.createGroundOverlay.
  destruct (negb _ || negb _); [discriminate|].
  destruct (calculateTransformMatrix pdfPoints mapPoints) as [T|cause]; [|discriminate].
  destruct (getPDFPageSize (groundOverlay.file_data pdfFile0)) as [ps|]; [|discriminate].
  destruct (generateHighQualityPDFImage (groundOverlay.file_data pdfFile0)) as [url|];
    [|discriminate].
  intros H Hps. apply outcome_Done_inj in H. subst v.
  injection Hps as <-.
  cbv zeta.
  cbn [groundOverlay.center groundOverlay.position groundOverlay.config
       groundOverlay.transformMatrix].
  symmetry. transitivity (transformPDFToGeo
    {| x := (0 + groundOverlay.width ps) / qc 2;
       y := (0 + groundOverlay.height ps) / qc 2 |} T).
  - rewrite !Qcplus_0_l. reflexivity.
  - exact (geo_bounds_center
      {| minX := 0; minY := 0; maxX := groundOverlay.width ps;
         maxY := groundOverlay.height ps |} T).
Qed.

(** Restoring the configuration of a created overlay recomputes the same
    matrix and gives an overlay with the same image, bounds and opacity,
    attached to the map it is restored on. *)
Theorem restoreGroundOverlay_after_create map0 map1 pdfFile0 pdfPoints mapPoints
  options env v :
  groundOverlay.createGroundOverlay generateHighQualityPDFImage getPDFPageSize
    map0 pdfFile0 pdfPoints mapPoints options env = groundOverlay.Done v ->
  exists w,
    groundOverlay.restoreGroundOverlay generateHighQualityPDFImage map1
      (groundOverlay.config v) = groundOverlay.Done w /\
    groundOverlay.restored_transformMatrix w = groundOverlay.transformMatrix v /\
    google_maps.getUrl (groundOverlay.restored_overlay w) =
      google_maps.getUrl (groundOverlay.overlay v) /\
    google_maps.getBounds (groundOverlay.restored_overlay w) =
      google_maps.getBounds (groundOverlay.overlay v) /\
    google_maps.getOpacity (groundOverlay.restored_overlay w) =
      google_maps.getOpacity (groundOverlay.overlay v) /\
    google_maps.getMap (groundOverlay.restored_overlay w) = map1.
Proof.
  unfold groundOverlay.createGroundOverlay.
  destruct (negb _ || negb _); [discriminate|].
  destruct (calculateTransformMatrix pdfPoints mapPoints) as [T|cause] eqn:Hc;
    [|discriminate].
  destruct (getPDFPageSize (groundOverlay.file_data pdfFile0)) as [ps|]; [|discriminate].
  destruct (generateHighQualityPDFImage (groundOverlay.file_data pdfFile0)) as [url|]
    eqn:Hg; [|discriminate].
  intros H. apply outcome_Done_inj in H. subst v.
  unfold groundOverlay.restoreGroundOverlay.
  cbn [groundOverlay.config groundOverlay.referencePoints groundOverlay.pdf
       groundOverlay.map groundOverlay.pdfFile groundOverlay.file_data].
  rewrite Hc, Hg. eexists. split; [reflexivity|]. repeat split.
Qed.

End OverlayProofs.

Definition sample_file : groundOverlay.File := groundOverlay.mkFile EmptyString nil.

Definition sample_env : groundOverlay.CallEnv :=
  groundOverlay.mkCallEnv EmptyString EmptyString 0%Z 0%Z.

Definition sample_image (bytes : list Byte.byte) : option String.string :=
  Some EmptyString.

Definition sample_page (bytes : list Byte.byte) : option groundOverlay.PageSize :=
  Some (groundOverlay.mkPageSize (qc 600) (qc 500)).

Lemma createGroundOverlay_spec_witness :
  exists v, groundOverlay.createGroundOverlay sample_image sample_page
    (google_maps.MapInstance 0) sample_file fixture_pdf fixture_map
    groundOverlay.default_options sample_env = groundOverlay.Done v /\
  calculateTransformMatrix fixture_pdf fixture_map = Ok (groundOverlay.transformMatrix v).
Proof.
  destruct (createGroundOverlay_spec sample_image sample_page
    (google_maps.MapInstance 0) sample_file fixture_pdf fixture_map
    groundOverlay.default_options sample_env) as (_ & _ & Hok & H).
  destruct (calculateTransformMatrix fixture_pdf fixture_map) as [T|err] eqn:E.
  - destruct (Hok T (groundOverlay.mkPageSize (qc 600) (qc 500)) EmptyString
      eq_refl eq_refl eq_refl) as (v & Hv).
    exists v. split; [exact Hv|]. exact (proj1 (H v Hv)).
  - exfalso. vm_compute in E. discriminate.
Defined.

Lemma createGroundOverlay_center_witness :
  exists v, groundOverlay.createGroundOverlay sample_image sample_page
    (google_maps.MapInstance 0) sample_file fixture_pdf fixture_map
    groundOverlay.default_options sample_env = groundOverlay.Done v /\
  groundOverlay.center (groundOverlay.position (groundOverlay.config v)) =
  transformPDFToGeo {| x := qc 600 / qc 2; y := qc 500 / qc 2 |}
                    (groundOverlay.transformMatrix v).
Proof.
  destruct (groundOverlay.createGroundOverlay sample_image sample_page
    (google_maps.MapInstance 0) sample_file fixture_pdf fixture_map
    groundOverlay.default_options sample_env) as [v|err] eqn:E.
  - exists v. split; [reflexivity|].
    exact (createGroundOverlay_center sample_image sample_page _ _ _ _ _ _ v
             (groundOverlay.mkPageSize (qc 600) (qc 500)) E eq_refl).
  - exfalso. vm_compute in E. discriminate.
Defined.

Lemma restoreGroundOverlay_after_create_witness :
  exists v w, groundOverlay.createGroundOverlay sample_image sample_page
    (google_maps.MapInstance 0) sample_file fixture_pdf fixture_map
    groundOverlay.default_options sample_env = groundOverlay.Done v /\
  groundOverlay.restoreGroundOverlay sample_image (google_maps.MapInstance 1)
    (groundOverlay.config v) = groundOverlay.Done w /\
  groundOverlay.restored_transformMatrix w = groundOverlay.transformMatrix v.
Proof.
  destruct (groundOverlay.createGroundOverlay sample_image sample_page
    (google_maps.MapInstance 0) sample_file fixture_pdf fixture_map
    groundOverlay.default_options sample_env) as [v|err] eqn:E.
  - destruct (restoreGroundOverlay_after_create sample_image sample_page
      _ (google_maps.MapInstance 1) _ _ _ _ _ v E) as (w & Hw & Ht & _).
    exists v, w. split; [reflexivity|]. split; assumption.
  - exfalso. vm_compute in E. discriminate.
Defined.

(** [updateOverlayOpacity] throws on a missing overlay; otherwise it
    changes only the opacity of the overlay, to the given value clamped into
    [0, 1]: the value itself when it is in [0, 1], 0 below, 1 above. *)
Theorem updateOverlayOpacity_clamps overlay0 opacity0 :
  groundOverlay.updateOverlayOpacity None opacity0 =
    groundOverlay.Thrown groundOverlay.OpacityUpdateFailed /\
  exists o, groundOverlay.updateOverlayOpacity (Some overlay0) opacity0 = groundOverlay.Done o /\
    o = google_maps.setOpacity overlay0 (google_maps.getOpacity o) /\
    0 <= google_maps.getOpacity o <= 1 /\
    (0 <= opacity0 -> opacity0 <= 1 -> google_maps.getOpacity o = opacity0) /\
    (opacity0 < 0 -> google_maps.getOpacity o = 0) /\
    (1 < opacity0 -> google_maps.getOpacity o = 1).
Proof.
  split; [reflexivity|].
  eexists. split; [reflexivity|]. split; [reflexivity|].
  unfold google_maps.getOpacity, google_maps.setOpacity. cbn [google_maps.go_opacity].
  unfold Math_max, Math_min. cbn [fold_left]. unfold Qcmax, Qcmin.
  assert (H01 : (0 : Qc) < 1) by reflexivity.
  destruct (Qclt_le_dec opacity0 1) as [Hp1|Hp1]; cbv beta iota.
  - destruct (Qclt_le_dec 0 opacity0) as [Hp0|Hp0]; cbv beta iota.
    + refine (conj (conj (Qclt_le_weak _ _ Hp0) (Qclt_le_weak _ _ Hp1))
                   (conj (fun _ _ => eq_refl) (conj (fun H => _) (fun H => _)))).
      * exfalso. exact (Qclt_not_le _ _ Hp0 (Qclt_le_weak _ _ H)).
      * exfalso. exact (Qclt_not_le _ _ Hp1 (Qclt_le_weak _ _ H)).
    + refine (conj (conj (Qcle_refl 0) (Qclt_le_weak _ _ H01))
                   (conj (fun H _ => _) (conj (fun _ => eq_refl) (fun H => _)))).
      * apply Qcle_antisym; assumption.
      * exfalso. exact (Qclt_not_le _ _ Hp1 (Qclt_le_weak _ _ H)).
  - destruct (Qclt_le_dec 0 1) as [_|H10];
      [|exfalso; exact (Qclt_not_le _ _ H01 H10)]; cbv beta iota.
    refine (conj (conj (Qclt_le_weak _ _ H01) (Qcle_refl 1))
                 (conj (fun _ H => _) (conj (fun H => _) (fun _ => eq_refl)))).
    * apply Qcle_antisym; assumption.
    * exfalso. apply (Qclt_not_le _ _ H). apply Qcle_trans with 1; [|exact Hp1].
      exact (Qclt_le_weak _ _ H01).
Qed.

Definition sample_overlay : google_maps.GroundOverlay :=
  google_maps.new_GroundOverlay EmptyString (Some sample_bounds)
    (google_maps.mkGroundOverlayOptions (qc 0.7) false None).

Lemma updateOverlayOpacity_clamps_witness :
  exists o, groundOverlay.updateOverlayOpacity (Some sample_overlay) (qc 1.5) =
            groundOverlay.Done o /\ google_maps.getOpacity o = 1.
Proof.
  destruct (updateOverlayOpacity_clamps sample_overlay (qc 1.5))
    as [_ (o & Ho & _ & _ & _ & _ & H)].
  exists o. split; [exact Ho|]. apply H. reflexivity.
Defined.

(** Removing an overlay detaches it from its map: its metadata then reports
    it as not visible, with bounds, opacity and url unchanged.  A missing
    overlay is left alone by [removeGroundOverlay] and makes
    [getOverlayMetadata] throw. *)
Theorem removeGroundOverlay_hides overlay0 :
  groundOverlay.removeGroundOverlay None = None /\
  groundOverlay.getOverlayMetadata None = groundOverlay.Thrown groundOverlay.MetadataFailed /\
  exists o, groundOverlay.removeGroundOverlay (Some overlay0) = Some o /\
    groundOverlay.getOverlayMetadata (Some o) =
    groundOverlay.Done {| groundOverlay.meta_bounds := google_maps.getBounds overlay0;
                          groundOverlay.meta_opacity := google_maps.getOpacity overlay0;
                          groundOverlay.meta_url := google_maps.getUrl overlay0;
                          groundOverlay.meta_visible := false |}.
Proof.
  split; [reflexivity|]. split; [reflexivity|].
  eexists. split; reflexivity.
Qed.
